(** * Rolled futures series: contract annotation, roll selection, back-adjustment

    A shallow embedding of [generic_roll.py] and [roll_functions.py].

    - A pandas [DataFrame] is a list of rows in positional order; a column is
      the list of one field of the rows.
    - The annotator and the selectors move price cells without computing on
      them.  Their tables carry a float cell as [option Z]: [Some p] is the
      price [p] counted in ticks, [None] is NaN.  A datetime cell is
      [option Timestamp], [None] is NaT.
    - The back-adjustment engine is given on two kinds of cells.  On the
      [option Z] cells sums and differences are exact; this reading serves
      the properties about which rows are adjusted, by which gaps, and where
      missing cells go.  On binary64 cells ([Row64], the primitive floats
      of the [Floats] library) every sum and difference is rounded as numpy
      rounds it; this reading serves the laws that compare computed prices:
      continuity at a roll day and the second run of the engine.
    - Symbols are strings of 8-bit characters.
    - A [Timestamp] is the wall-clock reading in the reference time zone: its
      calendar [Date] and the seconds elapsed since midnight.
    - A Python exception is the [Raise] branch of [result]. *)

From Stdlib Require Import ZArith List String Ascii Bool Lia QArith Qround Floats.
From Stdlib Require Import Sorting.Sorted Sorting.Permutation.
Import ListNotations.

Local Open Scope Z_scope.

(** ** Exceptions *)

Inductive exn : Type := KeyError | ValueError | IndexError.

Inductive result (A : Type) : Type :=
| Ok (a : A)
| Raise (e : exn).

Arguments Ok {A} a.
Arguments Raise {A} e.

Definition bind {A B : Type} (m : result A) (k : A -> result B) : result B :=
  match m with
  | Ok a => k a
  | Raise e => Raise e
  end.

Notation "x <- m ;; k" := (bind m (fun x => k))
  (at level 61, m at next level, right associativity).

(** [DataFrame.apply(f, axis=1)]: [f] runs on the rows in order, the first
    exception aborts the whole call. *)
Fixpoint apply_rows {A B : Type} (f : A -> result B) (df : list A) : result (list B) :=
  match df with
  | [] => Ok []
  | row :: rest =>
      v <- f row ;;
      vs <- apply_rows f rest ;;
      Ok (v :: vs)
  end.

(** ** Calendar *)

Record Date : Type := mkDate { year : Z; month : Z; day : Z }.

Record Timestamp : Type := mkTs { date : Date; seconds : Z }.

Definition midnight (d : Date) : Timestamp := mkTs d 0.

Definition is_leap (y : Z) : bool :=
  (y mod 4 =? 0) && (negb (y mod 100 =? 0) || (y mod 400 =? 0)).

Definition days_in_month (y m : Z) : Z :=
  if m =? 2 then (if is_leap y then 29 else 28)
  else if (m =? 4) || (m =? 6) || (m =? 9) || (m =? 11) then 30
  else 31.

Definition days_before_year (y : Z) : Z :=
  let p := y - 1 in p * 365 + p / 4 - p / 100 + p / 400.

Definition days_before_month (y m : Z) : Z :=
  nth (Z.to_nat m) [0; 0; 31; 59; 90; 120; 151; 181; 212; 243; 273; 304; 334] 0
  + (if (2 <? m) && is_leap y then 1 else 0).

(** Proleptic Gregorian ordinal, day 1 is 0001-01-01. *)
Definition toordinal (d : Date) : Z :=
  days_before_year (year d) + days_before_month (year d) (month d) + day d.

(** Monday is 0, Saturday is 5, Sunday is 6. *)
Definition weekday (d : Date) : Z := (toordinal d + 6) mod 7.

Definition prev_day (d : Date) : Date :=
  if 1 <? day d then mkDate (year d) (month d) (day d - 1)
  else if 1 <? month d
       then mkDate (year d) (month d - 1) (days_in_month (year d) (month d - 1))
       else mkDate (year d - 1) 12 31.

Definition next_day (d : Date) : Date :=
  if day d <? days_in_month (year d) (month d)
  then mkDate (year d) (month d) (day d + 1)
  else if month d <? 12 then mkDate (year d) (month d + 1) 1
       else mkDate (year d + 1) 1 1.

(** [d - DateOffset(days=n)]: [n] calendar days back (forward when [n < 0]). *)
Definition sub_days (d : Date) (n : Z) : Date :=
  if 0 <=? n then Nat.iter (Z.to_nat n) prev_day d
  else Nat.iter (Z.to_nat (- n)) next_day d.

(** Chronological order is the lexicographic order of the fields. *)
Fixpoint lex_compare (a b : list Z) : comparison :=
  match a, b with
  | [], [] => Eq
  | [], _ :: _ => Lt
  | _ :: _, [] => Gt
  | x :: a', y :: b' =>
      match x ?= y with
      | Eq => lex_compare a' b'
      | c => c
      end
  end.

Definition lex_leb (a b : list Z) : bool :=
  match lex_compare a b with Gt => false | _ => true end.

Definition lex_ltb (a b : list Z) : bool :=
  match lex_compare a b with Lt => true | _ => false end.

Definition date_key (d : Date) : list Z := [year d; month d; day d].

Definition ts_key (t : Timestamp) : list Z := date_key (date t) ++ [seconds t].

Definition date_eqb (a b : Date) : bool :=
  (year a =? year b) && (month a =? month b) && (day a =? day b).

Definition ts_eqb (a b : Timestamp) : bool :=
  date_eqb (date a) (date b) && (seconds a =? seconds b).

Definition ts_ltb (a b : Timestamp) : bool := lex_ltb (ts_key a) (ts_key b).

Definition ts_geb (a b : Timestamp) : bool := lex_leb (ts_key b) (ts_key a).


(** ** Tables *)

(** Raw bar: the index label [name] and the columns of the loaded file. *)
Record Bar : Type := mkBar {
  name : Timestamp;
  symbol : string;
  open : option Z;
  high : option Z;
  low : option Z;
  close : option Z
}.

(** Annotated bar.  The columns [symbol], [open], [high], [low] and [close]
    carry the prefix [r_]; [fm_roll_date] and [adjustment] are the columns
    the selectors add; [index] is the row label, a timestamp after the
    annotation and the midnight of the date after [set_index('date')]. *)
Record Row : Type := mkRow {
  index : Timestamp;
  r_symbol : string;
  r_open : option Z;
  r_high : option Z;
  r_low : option Z;
  r_close : option Z;
  contract_year : Z;
  contract_month : Z;
  expiry_length : Z;
  contract_roll_date : option Timestamp;
  fm_roll_date : option Timestamp;
  adjustment : option Z
}.

(** ** Contract Annotator *)

Definition FUTURE_MONTH_MAP : list (ascii * Z) :=
  [("F"%char, 1); ("G"%char, 2); ("H"%char, 3); ("J"%char, 4);
   ("K"%char, 5); ("M"%char, 6); ("N"%char, 7); ("Q"%char, 8);
   ("U"%char, 9); ("V"%char, 10); ("X"%char, 11); ("Z"%char, 12)].

Fixpoint dict_get (d : list (ascii * Z)) (k : ascii) : result Z :=
  match d with
  | [] => Raise KeyError
  | (k', v) :: rest => if Ascii.eqb k k' then Ok v else dict_get rest k
  end.

(** [s[i]] on a Python string. *)
Definition str_index (s : string) (i : nat) : result ascii :=
  match String.get i s with
  | Some c => Ok c
  | None => Raise IndexError
  end.

(** [int(c)] on a one-character string: of the 8-bit characters only the
    digits 0 to 9 convert. *)
Definition int_of_char (c : ascii) : result Z :=
  let n := Z.of_nat (nat_of_ascii c) in
  if (48 <=? n) && (n <=? 57) then Ok (n - 48) else Raise ValueError.

(** [math.ceil(y / 10)] and [math.floor(y / 10)]: true division, then
    rounding to an integer. *)
Definition math_ceil (q : Q) : Z := Qceiling q.
Definition math_floor (q : Q) : Z := Qfloor q.

Definition _get_contract_year (row : Bar) : result Z :=
  c <- str_index (symbol row) 3 ;;
  contract_year_first_digit <- int_of_char c ;;
  let curr_year := year (date (name row)) in
  if contract_year_first_digit <? curr_year mod 10
  then Ok (math_ceil (inject_Z curr_year / 10) * 10 + contract_year_first_digit)
  else Ok (math_floor (inject_Z curr_year / 10) * 10 + contract_year_first_digit).

Definition month_of_symbol (row : Bar) : result Z :=
  c <- str_index (symbol row) 2 ;;
  dict_get FUTURE_MONTH_MAP c.

(** The row read by [_get_expiry_length] carries its [contract_year]. *)
Definition _get_expiry_length (row : Bar * Z) : result Z :=
  m <- month_of_symbol (fst row) ;;
  let y := snd row in
  Ok ((y - year (date (name (fst row)))) * 12 + m - month (date (name (fst row)))).

(** [pd.bdate_range] over the days of one month: Monday to Friday. *)
Definition bdate_range (y m : Z) : list Date :=
  filter (fun d => weekday d <? 5)
         (map (fun k => mkDate y m (Z.of_nat k))
              (seq 1 (Z.to_nat (days_in_month y m)))).

(** The row read by [_get_near_roll_date] is given by its [contract_year]
    and [contract_month]; parsing the first of the month fails outside
    months 1 to 12. *)
Definition _get_near_roll_date (y m DAYS_BEFORE_EXPIRY : Z) : result Timestamp :=
  if negb ((1 <=? m) && (m <=? 12)) then Raise ValueError else
  let bdays := bdate_range y m in
  match nth_error (rev bdays) 2 with
  | None => Raise IndexError
  | Some b =>
      let roll_date := sub_days b DAYS_BEFORE_EXPIRY in
      if weekday roll_date =? 5
      then Ok (midnight (prev_day roll_date))
      else Ok (midnight roll_date)
  end.

Definition annotate (b : Bar) (cy cm el : Z) (rd : option Timestamp) : Row :=
  mkRow (name b) (symbol b) (open b) (high b) (low b) (close b)
        cy cm el rd None None.

Fixpoint assemble (fdf : list Bar) (ys ms es : list Z)
         (rs : list (option Timestamp)) : list Row :=
  match fdf, ys, ms, es, rs with
  | b :: fdf', y :: ys', m :: ms', e :: es', r :: rs' =>
      annotate b y m e r :: assemble fdf' ys' ms' es' rs'
  | _, _, _, _, _ => []
  end.

Definition single_contract_filter (b : Bar) : bool :=
  (String.length (symbol b) =? 4)%nat.

(** [fdf[col] = fdf.apply(f, axis=1)].  On a table without rows [apply]
    calls [f] on no row and hands back a copy of the table instead of a
    column; a bar table has several columns, and assigning it to the single
    column [col] raises [ValueError]. *)
Definition assign_apply {A B : Type} (f : A -> result B) (df : list A)
  : result (list B) :=
  match df with
  | [] => Raise ValueError
  | _ :: _ => apply_rows f df
  end.

(** [combine_features] of [roll_functions.py]; the one of [generic_roll.py]
    is the call with [near_roll = false]. *)
Definition combine_features (df : list Bar) (near_roll : bool)
           (DAYS_BEFORE_EXPIRY : Z) : result (list Row) :=
  let fdf := filter single_contract_filter df in
  ys <- assign_apply _get_contract_year fdf ;;
  ms <- assign_apply month_of_symbol fdf ;;
  es <- assign_apply _get_expiry_length (combine fdf ys) ;;
  rs <- (if near_roll
         then assign_apply
                (fun ym => r <- _get_near_roll_date (fst ym) (snd ym)
                                                    DAYS_BEFORE_EXPIRY ;;
                           Ok (Some r))
                (combine ys ms)
         else Ok (map (fun _ => None) fdf)) ;;
  Ok (assemble fdf ys ms es rs).

(** ** Column operations *)

(** [col.shift(-1)]: every cell takes the value of the next row, the last
    cell becomes missing. *)
Definition shift_m1 {A : Type} (col : list (option A)) : list (option A) :=
  match col with
  | [] => []
  | _ :: rest => rest ++ [None]
  end.

Fixpoint map2 {A B C : Type} (f : A -> B -> C) (l1 : list A) (l2 : list B) : list C :=
  match l1, l2 with
  | a :: l1', b :: l2' => f a b :: map2 f l1' l2'
  | _, _ => []
  end.

(** Addition and subtraction of tick counts, exact; a missing cell absorbs.
    The rounded operations of binary64 are those of [Row64] below. *)
Definition fadd (a b : option Z) : option Z :=
  match a, b with
  | Some x, Some y => Some (x + y)
  | _, _ => None
  end.

Definition fsub (a b : option Z) : option Z :=
  match a, b with
  | Some x, Some y => Some (x - y)
  | _, _ => None
  end.

(** [np.where(cond, col, v)] with a scalar third argument. *)
Definition np_where (cond : list bool) (col : list (option Z)) (v : option Z)
  : list (option Z) :=
  map2 (fun (c : bool) x => if c then x else v) cond col.

(** [np.where(np.isnan(col), 0, col)]. *)
Definition nan_to_zero (col : list (option Z)) : list (option Z) :=
  map (fun x => match x with None => Some 0 | Some _ => x end) col.

(** [Series.cumsum()]: a running sum that skips NaN cells and leaves them NaN. *)
Fixpoint cumsum_from (acc : Z) (col : list (option Z)) : list (option Z) :=
  match col with
  | [] => []
  | None :: rest => None :: cumsum_from acc rest
  | Some x :: rest => Some (acc + x) :: cumsum_from (acc + x) rest
  end.

Definition cumsum (col : list (option Z)) : list (option Z) := cumsum_from 0 col.

(** [col.iloc[::-1].cumsum().iloc[::-1]]. *)
Definition rev_cumsum (col : list (option Z)) : list (option Z) :=
  rev (cumsum (rev col)).

(** [a != b] on two label columns; a missing label differs from everything. *)
Definition ne_cells (a b : option string) : bool :=
  match a, b with
  | Some x, Some y => negb (String.eqb x y)
  | _, _ => true
  end.

(** Stable sort by a key of integers compared lexicographically. *)
Fixpoint insert_by (key : Row -> list Z) (r : Row) (l : list Row) : list Row :=
  match l with
  | [] => [r]
  | x :: rest =>
      if lex_leb (key r) (key x) then r :: l else x :: insert_by key r rest
  end.

Fixpoint sort_by (key : Row -> list Z) (l : list Row) : list Row :=
  match l with
  | [] => []
  | r :: rest => insert_by key r (sort_by key rest)
  end.

(** [drop_duplicates(subset='date', keep='first')]. *)
Fixpoint drop_duplicates_from (seen : list Date) (l : list Row) : list Row :=
  match l with
  | [] => []
  | r :: rest =>
      if existsb (date_eqb (date (index r))) seen
      then drop_duplicates_from seen rest
      else r :: drop_duplicates_from (date (index r) :: seen) rest
  end.

Definition drop_duplicates (l : list Row) : list Row := drop_duplicates_from [] l.

Definition set_index_date (r : Row) : Row :=
  mkRow (midnight (date (index r))) (r_symbol r) (r_open r) (r_high r) (r_low r)
        (r_close r) (contract_year r) (contract_month r) (expiry_length r)
        (contract_roll_date r) (fm_roll_date r) (adjustment r).

Definition set_adjustment (r : Row) (a : option Z) : Row :=
  mkRow (index r) (r_symbol r) (r_open r) (r_high r) (r_low r) (r_close r)
        (contract_year r) (contract_month r) (expiry_length r)
        (contract_roll_date r) (fm_roll_date r) a.

Definition set_fm_roll_date (r : Row) (d : option Timestamp) : Row :=
  mkRow (index r) (r_symbol r) (r_open r) (r_high r) (r_low r) (r_close r)
        (contract_year r) (contract_month r) (expiry_length r)
        (contract_roll_date r) d (adjustment r).

(** [ndf[cols_to_adjust].add(total_adjustment, axis=0)] on one row. *)
Definition add_to_prices (r : Row) (t : option Z) : Row :=
  mkRow (index r) (r_symbol r) (fadd (r_open r) t) (fadd (r_high r) t)
        (fadd (r_low r) t) (fadd (r_close r) t)
        (contract_year r) (contract_month r) (expiry_length r)
        (contract_roll_date r) (fm_roll_date r) (adjustment r).

(** The forward-looking gap [ndf['open'].shift(-1) - ndf['close']]. *)
Definition roll_gap (ndf : list Row) : list (option Z) :=
  map2 fsub (shift_m1 (map r_open ndf)) (map r_close ndf).

(** ** Generic-Length Roll Selector *)

Definition isin_lengths (length : Z) (r : Row) : bool :=
  (expiry_length r =? length) || (expiry_length r =? length + 1).

Definition date_expiry_key (r : Row) : list Z :=
  date_key (date (index r)) ++ [expiry_length r].

(** Lines 42 to 49 of [create_rolled_series]: the selected series [ndf].
    The index of [df] is not named [date], as after [combine_features]; a
    table returned by [create_rolled_series] has its index named [date]
    and is outside the domain: on it [sort_values(by=['date', ...])] finds
    the label both as index level and as column and raises. *)
Definition select_generic (df : list Row) (length : Z) : list Row :=
  let candidates := filter (isin_lengths length) df in
  map set_index_date (drop_duplicates (sort_by date_expiry_key candidates)).

(** ** Back-Adjustment Engine, generic policy *)

Definition is_roll_day_generic (ndf : list Row) : list bool :=
  let sym := map (fun r => Some (r_symbol r)) ndf in
  map2 ne_cells sym (shift_m1 sym).

Definition adjustment_generic (ndf : list Row) : list (option Z) :=
  nan_to_zero (np_where (is_roll_day_generic ndf) (roll_gap ndf) (Some 0)).

Definition total_adjustment_generic (ndf : list Row) : list (option Z) :=
  rev_cumsum (adjustment_generic ndf).

(** Lines 56 to 70 of [create_rolled_series]. *)
Definition back_adjust_generic (ndf : list Row) : list Row :=
  let ndf1 := map2 set_adjustment ndf (adjustment_generic ndf) in
  let total_adjustment := rev_cumsum (map adjustment ndf1) in
  map2 add_to_prices ndf1 total_adjustment.

(** [verbose] only prints a count and is left out. *)
Definition create_rolled_series (df : list Row) (length : Z) : list Row :=
  back_adjust_generic (select_generic df length).

Definition generic_roll (df : list Row) (length : Z) : list Row :=
  create_rolled_series df length.




(** ** Near-Roll Selector and its engine *)

Definition before_roll_date (r : Row) : bool :=
  match contract_roll_date r with
  | Some d => ts_ltb (index r) d
  | None => false
  end.

Definition on_or_after_fm_roll_date (r : Row) : bool :=
  match fm_roll_date r with
  | Some d => ts_geb (index r) d
  | None => false
  end.

(** [frdf.loc[t, 'contract_roll_date']] for a label [t] of [common_idx];
    labels outside [common_idx] are left missing.  The labels of [frdf]
    are taken to be unique, as label alignment requires. *)
Definition aligned_roll_date (frdf : list Row) (t : Timestamp) : option Timestamp :=
  match find (fun f => ts_eqb (index f) t) frdf with
  | Some f => contract_roll_date f
  | None => None
  end.

Definition front_month (df : list Row) : list Row :=
  filter (fun r => expiry_length r =? 0) df.

Definition second_month (df : list Row) : list Row :=
  filter (fun r => expiry_length r =? 1) df.

Definition adj_frdf (df : list Row) : list Row :=
  filter before_roll_date (front_month df).

Definition adj_sdf (df : list Row) : list Row :=
  let frdf := front_month df in
  let sdf := map (fun r => set_fm_roll_date r (aligned_roll_date frdf (index r)))
                 (second_month df) in
  filter on_or_after_fm_roll_date sdf.

(** Lines 58 to 70 of [near_roll]: the selected series [ndf]. *)
Definition select_near (df : list Row) : list Row :=
  sort_by (fun r => ts_key (index r)) (adj_frdf df ++ adj_sdf df).

Definition is_roll_day_near (r : Row) : bool :=
  match contract_roll_date r with
  | Some d => date_eqb (date (index r)) (date d)
  | None => false
  end.

Definition adjustment_near (ndf : list Row) : list (option Z) :=
  nan_to_zero (np_where (map is_roll_day_near ndf) (roll_gap ndf) (Some 0)).

Definition total_adjustment_near (ndf : list Row) : list (option Z) :=
  nan_to_zero (shift_m1 (rev_cumsum (adjustment_near ndf))).

(** Lines 73 to 87 of [near_roll]. *)
Definition back_adjust_near (ndf : list Row) : list Row :=
  let ndf1 := map2 set_adjustment ndf (adjustment_near ndf) in
  let total_adjustment :=
    nan_to_zero (shift_m1 (rev_cumsum (map adjustment ndf1))) in
  map2 add_to_prices ndf1 total_adjustment.

(** The arguments [DAYS_BEFORE_EXPIRY] and [verbose] are not read by the body. *)
Definition near_roll (df : list Row) : list Row :=
  back_adjust_near (select_near df).

(** ** Back-Adjustment Engine in binary64 *)

(** A row of a Selected Series with its price cells as the binary64 numbers
    that pandas stores; a missing price is a NaN.  [adjustment64] is the
    column the engine writes, NaN before it is set.  The rows of a Selected
    Series have pairwise different dates. *)
Record Row64 : Type := mkRow64 {
  index64 : Timestamp;
  symbol64 : string;
  open64 : float;
  high64 : float;
  low64 : float;
  close64 : float;
  adjustment64 : float
}.

(** [col.shift(-1)] on a float column. *)
Definition shift64 (col : list float) : list float :=
  match col with
  | [] => []
  | _ :: rest => rest ++ [nan]
  end.

(** [np.where(cond, col, v)] with a scalar third argument. *)
Definition np_where64 (cond : list bool) (col : list float) (v : float)
  : list float :=
  map2 (fun (c : bool) x => if c then x else v) cond col.

(** One cell of [np.where(np.isnan(col), 0, col)]. *)
Definition skipna (x : float) : float := if is_nan x then 0%float else x.

Definition nan_to_zero64 (col : list float) : list float := map skipna col.

(** [np.cumsum]: the first cell is kept, every later cell is the rounded sum
    of the previous result and the cell. *)
Fixpoint accumulate64 (acc : float) (col : list float) : list float :=
  match col with
  | [] => []
  | x :: rest => (acc + x)%float :: accumulate64 (acc + x)%float rest
  end.

Definition np_cumsum64 (col : list float) : list float :=
  match col with
  | [] => []
  | x :: rest => x :: accumulate64 x rest
  end.

(** [Series.cumsum()]: NaN cells count as zero in the running sum and stay
    NaN in the result. *)
Definition cumsum64 (col : list float) : list float :=
  map2 (fun x s => if is_nan x then nan else s) col (np_cumsum64 (map skipna col)).

(** [col.iloc[::-1].cumsum().iloc[::-1]]. *)
Definition rev_cumsum64 (col : list float) : list float :=
  rev (cumsum64 (rev col)).

(** The forward-looking gap [ndf['open'].shift(-1) - ndf['close']]. *)
Definition roll_gap64 (ndf : list Row64) : list float :=
  map2 PrimFloat.sub (shift64 (map open64 ndf)) (map close64 ndf).

Definition is_roll_day_generic64 (ndf : list Row64) : list bool :=
  let sym := map (fun r => Some (symbol64 r)) ndf in
  map2 ne_cells sym (shift_m1 sym).

Definition adjustment_generic64 (ndf : list Row64) : list float :=
  nan_to_zero64 (np_where64 (is_roll_day_generic64 ndf) (roll_gap64 ndf) 0%float).


Definition set_adjustment64 (r : Row64) (a : float) : Row64 :=
  mkRow64 (index64 r) (symbol64 r) (open64 r) (high64 r) (low64 r) (close64 r) a.

(** [ndf[cols_to_adjust].add(total_adjustment, axis=0)] on one row. *)
Definition add_to_prices64 (r : Row64) (t : float) : Row64 :=
  mkRow64 (index64 r) (symbol64 r)
          (open64 r + t)%float (high64 r + t)%float
          (low64 r + t)%float (close64 r + t)%float
          (adjustment64 r).

(** Lines 56 to 70 of [create_rolled_series], in binary64. *)
Definition back_adjust_generic64 (ndf : list Row64) : list Row64 :=
  let ndf1 := map2 set_adjustment64 ndf (adjustment_generic64 ndf) in
  let total_adjustment := rev_cumsum64 (map adjustment64 ndf1) in
  map2 add_to_prices64 ndf1 total_adjustment.

(** ** Specification vocabulary *)

(** [c] is the ceiling of [y / 10]; [f] is its floor. *)
Definition is_ceil_tenth (y c : Z) : Prop := y <= 10 * c < y + 10.
Definition is_floor_tenth (y f : Z) : Prop := 10 * f <= y < 10 * f + 10.

Definition four_chars (c0 c1 c2 c3 : ascii) : string :=
  String c0 (String c1 (String c2 (String c3 EmptyString))).

Definition month_codes : list ascii :=
  ["F"; "G"; "H"; "J"; "K"; "M"; "N"; "Q"; "U"; "V"; "X"; "Z"]%char.

(** The four adjusted columns of a row. *)
Definition prices (r : Row) : option Z * option Z * option Z * option Z :=
  (r_open r, r_high r, r_low r, r_close r).

(** Last row of a table. *)
Fixpoint final {A : Type} (l : list A) : option A :=
  match l with
  | [] => None
  | x :: rest => match rest with [] => Some x | _ :: _ => final rest end
  end.

Definition date_leb (a b : Date) : bool := lex_leb (date_key a) (date_key b).

(** Row-by-row reading of the engine: the gap of a pair of consecutive
    rows, the per-row adjustment of each policy, and the running totals. *)
Definition gap_value (r r' : Row) : Z :=
  match r_open r', r_close r with
  | Some o, Some c => o - c
  | _, _ => 0
  end.

Fixpoint adj_generic (ndf : list Row) : list Z :=
  match ndf with
  | [] => []
  | r :: rest =>
      match rest with
      | [] => 0
      | r' :: _ => if String.eqb (r_symbol r) (r_symbol r') then 0 else gap_value r r'
      end :: adj_generic rest
  end.

Fixpoint adj_near (ndf : list Row) : list Z :=
  match ndf with
  | [] => []
  | r :: rest =>
      match rest with
      | [] => 0
      | r' :: _ => if is_roll_day_near r then gap_value r r' else 0
      end :: adj_near rest
  end.

Definition sumZ (l : list Z) : Z := fold_right Z.add 0 l.

Fixpoint suffix_sums (zs : list Z) : list Z :=
  match zs with
  | [] => []
  | x :: rest => (x + sumZ rest) :: suffix_sums rest
  end.

Fixpoint tail_sums (zs : list Z) : list Z :=
  match zs with
  | [] => []
  | _ :: rest => sumZ rest :: tail_sums rest
  end.

Fixpoint adjusted (ndf : list Row) (adj tot : list Z) : list Row :=
  match ndf, adj, tot with
  | r :: ndf', a :: adj', t :: tot' =>
      add_to_prices (set_adjustment r (Some a)) (Some t) :: adjusted ndf' adj' tot'
  | _, _, _ => []
  end.



(** The calendar dates of the rows of a table, and their order. *)
Definition dates (l : list Row) : list Date := map (fun r => date (index r)) l.

Definition date_le (a b : Date) : Prop := date_leb a b = true.

Definition key_le (key : Row -> list Z) (a b : Row) : Prop :=
  lex_leb (key a) (key b) = true.




(** A well-formed calendar date. *)
Definition valid_date (d : Date) : Prop :=
  1 <= month d <= 12 /\ 1 <= day d <= days_in_month (year d) (month d).

(** The symbol of a bar decodes: four characters, a month code of the table
    in third place and a digit in fourth place. *)
Definition digit_char (c : ascii) : Prop := exists d, int_of_char c = Ok d.

Definition decodable (b : Bar) : Prop :=
  exists c0 c1 c2 c3,
    symbol b = four_chars c0 c1 c2 c3 /\ In c2 month_codes /\ digit_char c3.

(** The row that [combine_features] makes of a bar, column by column. *)
Definition annotation_of (near_roll : bool) (k : Z) (b : Bar) (r : Row) : Prop :=
  index r = name b /\ r_symbol r = symbol b /\
  prices r = (open b, high b, low b, close b) /\
  _get_contract_year b = Ok (contract_year r) /\
  month_of_symbol b = Ok (contract_month r) /\
  expiry_length r =
  (contract_year r - year (date (name b))) * 12
  + contract_month r - month (date (name b)) /\
  (if near_roll
   then exists R, _get_near_roll_date (contract_year r) (contract_month r) k = Ok R /\
                  contract_roll_date r = Some R
   else contract_roll_date r = None) /\
  fm_roll_date r = None /\ adjustment r = None.

(** The column assignments of [combine_features] on a filtered table that
    has rows: every [apply] then returns a column. *)
Definition decode_columns (fdf : list Bar) (near_roll : bool) (k : Z)
  : result (list Row) :=
  ys <- apply_rows _get_contract_year fdf ;;
  ms <- apply_rows month_of_symbol fdf ;;
  es <- apply_rows _get_expiry_length (combine fdf ys) ;;
  rs <- (if near_roll
         then apply_rows
                (fun ym => r <- _get_near_roll_date (fst ym) (snd ym) k ;;
                           Ok (Some r))
                (combine ys ms)
         else Ok (map (fun _ => None) fdf)) ;;
  Ok (assemble fdf ys ms es rs).

(** Strict order of calendar dates, and the order of sort keys. *)
Definition date_lt (a b : Date) : Prop := lex_ltb (date_key a) (date_key b) = true.

Definition lex_le (a b : list Z) : Prop := lex_leb a b = true.

(** A float cell read as a number, a missing cell as zero. *)
Definition nan_as_zero (x : option Z) : Z :=
  match x with
  | Some v => v
  | None => 0
  end.

(** Row-by-row reading of the binary64 engine. *)
Fixpoint adj_generic64 (ndf : list Row64) : list float :=
  match ndf with
  | [] => []
  | r :: rest =>
      match rest with
      | [] => 0%float
      | r' :: _ =>
          if String.eqb (symbol64 r) (symbol64 r') then 0%float
          else skipna (open64 r' - close64 r)%float
      end :: adj_generic64 rest
  end.

(** The reverse running sums: each total is the rounded sum of the total of
    the next row and the row's own cell. *)
Fixpoint totals64 (col : list float) : list float :=
  match col with
  | [] => []
  | a :: rest =>
      match totals64 rest with
      | [] => a
      | t :: _ => (t + a)%float
      end :: totals64 rest
  end.


(** A table without a gap at its roll days: wherever the symbol changes
    from a row to the next, the close equals the next open. *)
Definition continuous_at_rolls64 (out : list Row64) : Prop :=
  forall i a a',
    nth_error out i = Some a ->
    nth_error out (S i) = Some a' ->
    symbol64 a <> symbol64 a' ->
    close64 a = open64 a'.


(** ** Sample data *)

Definition daily_bar (y m d : Z) (s : string) (o h l c : Z) : Bar :=
  mkBar (midnight (mkDate y m d)) s (Some o) (Some h) (Some l) (Some c).

Definition bar_GCZ3 : Bar := daily_bar 2023 11 15 "GCZ3" 98 101 97 100.
Definition bar_bad_month : Bar := daily_bar 2023 11 15 "GCA3" 98 101 97 100.

Definition rows_of (x : result (list Row)) : list Row :=
  match x with
  | Ok l => l
  | Raise _ => []
  end.

(** Bars of the November and December 2023 contracts; with the offset 30
    the December contract rolls on 2023-11-27. *)
Definition shifted_bars : list Bar :=
  [daily_bar 2023 11 27 "GCX3" 10 12 9 11;
   daily_bar 2023 11 27 "GCZ3" 98 101 97 100;
   daily_bar 2023 11 28 "GCX3" 12 14 11 13;
   daily_bar 2023 11 28 "GCZ3" 105 108 104 107].

Definition shifted_df : list Row := rows_of (combine_features shifted_bars true 30).

(** Bars around the roll of the one-month generic series from the November
    to the December 2023 contract. *)
Definition generic_bars : list Bar :=
  [daily_bar 2023 10 30 "GCX3" 98 101 97 100;
   daily_bar 2023 10 30 "GCZ3" 198 201 197 200;
   daily_bar 2023 11 1 "GCZ3" 105 108 104 107;
   daily_bar 2023 11 1 "GCF4" 205 208 204 207;
   daily_bar 2023 11 2 "GCZ3" 106 109 105 108].

Definition generic_df : list Row := rows_of (combine_features generic_bars false 3).

(** On 2023-11-15 only the second-month contract has a bar. *)
Definition coverage_bars : list Bar :=
  [daily_bar 2023 11 14 "GCX3" 10 12 9 11;
   daily_bar 2023 11 14 "GCZ3" 98 101 97 100;
   daily_bar 2023 11 15 "GCZ3" 105 108 104 107].

Definition coverage_df : list Row := rows_of (combine_features coverage_bars true 3).


(** Two days around a roll with prices in cents: the close 83.87 of the
    outgoing contract and the open 1438.78 of the incoming one are read as
    the nearest binary64 numbers, which the correctly rounded quotients
    give. *)
Definition cent_rows : list Row64 :=
  [mkRow64 (midnight (mkDate 2023 10 30)) "GCX3"
           83.5 84 83 (8387 / 100) nan;
   mkRow64 (midnight (mkDate 2023 10 31)) "GCZ3"
           (143878 / 100) 1440 1438 1439 nan].

(** * Properties *)

(** ** The error monad *)

Lemma apply_rows_Ok_cons {A B : Type} (f : A -> result B) x l out :
  apply_rows f (x :: l) = Ok out ->
  exists v vs, out = v :: vs /\ f x = Ok v /\ apply_rows f l = Ok vs.
Proof.
  simpl. destruct (f x) as [v|e]; simpl; [|discriminate].
  destruct (apply_rows f l) as [vs|e]; simpl; [|discriminate].
  intros H; injection H as <-. now exists v, vs.
Qed.

Lemma apply_rows_length {A B : Type} (f : A -> result B) l :
  forall out, apply_rows f l = Ok out -> List.length out = List.length l.
Proof.
  induction l as [|x l IH]; intros out H.
  - injection H as <-. reflexivity.
  - apply apply_rows_Ok_cons in H as (v & vs & -> & _ & Hl).
    simpl. f_equal. now apply IH.
Qed.

Lemma apply_rows_Raise_inv {A B : Type} (f : A -> result B) l e :
  apply_rows f l = Raise e -> exists x, In x l /\ f x = Raise e.
Proof.
  induction l as [|x l IH]; simpl; [discriminate|].
  destruct (f x) as [v|e'] eqn:Hx; simpl.
  - destruct (apply_rows f l) as [vs|e'']; simpl; [discriminate|].
    intros H; injection H as ->.
    destruct IH as (y & Hy & Hfy); [reflexivity|]. exists y. auto.
  - intros H; injection H as ->. exists x. auto.
Qed.

Lemma apply_rows_In_Raise {A B : Type} (f : A -> result B) l x e :
  In x l -> f x = Raise e -> exists e', apply_rows f l = Raise e'.
Proof.
  induction l as [|y l IH]; simpl; [tauto|].
  intros [->|Hin] Hx.
  - rewrite Hx. simpl. eauto.
  - destruct (f y); simpl; [|eauto].
    destruct (IH Hin Hx) as [e' ->]. simpl. eauto.
Qed.

Lemma combine_features_nonempty df (nr : bool) k :
  filter single_contract_filter df <> [] ->
  combine_features df nr k =
  decode_columns (filter single_contract_filter df) nr k.
Proof.
  unfold combine_features, decode_columns.
  destruct (filter single_contract_filter df) as [|b fdf]; [congruence|].
  intros _. cbn [assign_apply].
  destruct (apply_rows _get_contract_year (b :: fdf)) as [ys|e] eqn:Hys;
    cbn [bind]; [|reflexivity].
  apply apply_rows_length in Hys.
  destruct ys as [|y ys]; [discriminate|].
  destruct (apply_rows month_of_symbol (b :: fdf)) as [ms|e] eqn:Hms;
    cbn [bind]; [|reflexivity].
  apply apply_rows_length in Hms.
  destruct ms as [|m ms]; [discriminate|].
  reflexivity.
Qed.

Lemma combine_features_no_rows df (nr : bool) k :
  filter single_contract_filter df = [] ->
  combine_features df nr k = Raise ValueError.
Proof. unfold combine_features. now intros ->. Qed.

Lemma combine_features_Ok df (nr : bool) k out :
  combine_features df nr k = Ok out ->
  filter single_contract_filter df <> [] /\
  decode_columns (filter single_contract_filter df) nr k = Ok out.
Proof.
  intros H.
  destruct (filter single_contract_filter df) as [|b fdf] eqn:E.
  - rewrite (combine_features_no_rows _ _ _ E) in H. discriminate.
  - rewrite combine_features_nonempty in H by (rewrite E; discriminate).
    rewrite E in H. split; [discriminate|exact H].
Qed.

Lemma In_nonempty {A : Type} (x : A) l : In x l -> l <> [].
Proof. intros H ->. destruct H. Qed.

(** ** Contract year *)

Lemma math_floor_tenth y : math_floor (inject_Z y / 10) = y / 10.
Proof.
  unfold math_floor, Qfloor, Qdiv, Qmult, Qinv, inject_Z. simpl.
  now rewrite Z.mul_1_r.
Qed.

Lemma math_ceil_tenth y : math_ceil (inject_Z y / 10) = - ((- y) / 10).
Proof.
  unfold math_ceil, Qceiling, Qfloor, Qopp, Qdiv, Qmult, Qinv, inject_Z. simpl.
  now rewrite Z.mul_1_r.
Qed.

Lemma int_of_char_digit c d : int_of_char c = Ok d -> 0 <= d <= 9.
Proof.
  unfold int_of_char.
  destruct ((48 <=? Z.of_nat (nat_of_ascii c)) && (Z.of_nat (nat_of_ascii c) <=? 57)) eqn:E;
    [|discriminate].
  intros H; injection H as <-.
  apply andb_true_iff in E as [E1 E2]. lia.
Qed.

Lemma get_contract_year_eq row c0 c1 c2 c3 d :
  symbol row = four_chars c0 c1 c2 c3 ->
  int_of_char c3 = Ok d ->
  _get_contract_year row =
  Ok (if d <? year (date (name row)) mod 10
      then - ((- year (date (name row))) / 10) * 10 + d
      else year (date (name row)) / 10 * 10 + d).
Proof.
  intros Hs Hd. unfold _get_contract_year. rewrite Hs.
  unfold four_chars, str_index. cbn [String.get bind].
  rewrite Hd. cbn [bind]. rewrite math_floor_tenth, math_ceil_tenth.
  now destruct (d <? year (date (name row)) mod 10).
Qed.

(** C5. For a bar dated in year [Y] whose 4-character symbol ends in the digit
    [d], [_get_contract_year] returns [ceil(Y/10)*10 + d] when [d < Y mod 10]
    and [floor(Y/10)*10 + d] otherwise; when [d = Y mod 10] that is [Y]
    itself; the last digit of the returned year is [d]. *)
Theorem contract_year_decoding (row : Bar) (c0 c1 c2 c3 : ascii) (d : Z) :
  symbol row = four_chars c0 c1 c2 c3 ->
  int_of_char c3 = Ok d ->
  exists cy,
    _get_contract_year row = Ok cy /\
    (d < year (date (name row)) mod 10 ->
     exists c, is_ceil_tenth (year (date (name row))) c /\ cy = c * 10 + d) /\
    (year (date (name row)) mod 10 <= d ->
     exists f, is_floor_tenth (year (date (name row))) f /\ cy = f * 10 + d) /\
    (d = year (date (name row)) mod 10 -> cy = year (date (name row))) /\
    cy mod 10 = d.
Proof.
  intros Hs Hd. pose proof (int_of_char_digit _ _ Hd) as Hr.
  rewrite (get_contract_year_eq _ _ _ _ _ _ Hs Hd).
  set (Y := year (date (name row))).
  eexists; split; [reflexivity|].
  destruct (Z.ltb_spec d (Y mod 10)) as [Hlt|Hge]; repeat split.
  - intros _. exists (- (- Y / 10)). split; [|reflexivity].
    unfold is_ceil_tenth.
    pose proof (Z.div_mod (- Y) 10 ltac:(lia)).
    pose proof (Z.mod_pos_bound (- Y) 10 ltac:(lia)). lia.
  - intros ?. lia.
  - intros ?. lia.
  - pose proof (Z.div_mod (- Y) 10 ltac:(lia)).
    pose proof (Z.mod_pos_bound (- Y) 10 ltac:(lia)).
    rewrite Z.add_comm, Z.mod_add by lia. apply Z.mod_small. lia.
  - intros ?. lia.
  - intros _. exists (Y / 10). split; [|reflexivity].
    unfold is_floor_tenth.
    pose proof (Z.div_mod Y 10 ltac:(lia)).
    pose proof (Z.mod_pos_bound Y 10 ltac:(lia)). lia.
  - intros ->. pose proof (Z.div_mod Y 10 ltac:(lia)). lia.
  - rewrite Z.add_comm, Z.mod_add by lia. apply Z.mod_small. lia.
Qed.

Lemma contract_year_decoding_witness :
  exists cy,
    _get_contract_year bar_GCZ3 = Ok cy /\
    (3 < 2023 mod 10 -> exists c, is_ceil_tenth 2023 c /\ cy = c * 10 + 3) /\
    (2023 mod 10 <= 3 -> exists f, is_floor_tenth 2023 f /\ cy = f * 10 + 3) /\
    (3 = 2023 mod 10 -> cy = 2023) /\
    cy mod 10 = 3.
Proof.
  apply (contract_year_decoding bar_GCZ3 "G" "C" "Z" "3" 3); reflexivity.
Defined.

(** C10. For a bar dated in year [Y] with a 4-character symbol ending in a
    digit, the year returned by [_get_contract_year] lies between [Y] and
    [Y + 9], in both branches. *)
Theorem contract_year_range (row : Bar) (c0 c1 c2 c3 : ascii) (d : Z) :
  symbol row = four_chars c0 c1 c2 c3 ->
  int_of_char c3 = Ok d ->
  exists cy,
    _get_contract_year row = Ok cy /\
    year (date (name row)) <= cy <= year (date (name row)) + 9.
Proof.
  intros Hs Hd. pose proof (int_of_char_digit _ _ Hd) as Hr.
  rewrite (get_contract_year_eq _ _ _ _ _ _ Hs Hd).
  set (Y := year (date (name row))).
  eexists; split; [reflexivity|].
  pose proof (Z.div_mod Y 10 ltac:(lia)).
  pose proof (Z.mod_pos_bound Y 10 ltac:(lia)).
  pose proof (Z.div_mod (- Y) 10 ltac:(lia)).
  pose proof (Z.mod_pos_bound (- Y) 10 ltac:(lia)).
  destruct (Z.ltb_spec d (Y mod 10)); lia.
Qed.

Lemma contract_year_range_witness :
  exists cy, _get_contract_year bar_GCZ3 = Ok cy /\ 2023 <= cy <= 2023 + 9.
Proof.
  apply (contract_year_range bar_GCZ3 "G" "C" "Z" "3" 3); reflexivity.
Defined.

(** ** Symbol decoding failures *)

Lemma length_four_chars s :
  String.length s = 4%nat -> exists c0 c1 c2 c3, s = four_chars c0 c1 c2 c3.
Proof.
  destruct s as [|c0 [|c1 [|c2 [|c3 [|c4 s]]]]]; simpl; try discriminate.
  intros _. now exists c0, c1, c2, c3.
Qed.

Lemma filter_four_chars df row :
  In row (filter single_contract_filter df) <->
  In row df /\ String.length (symbol row) = 4%nat.
Proof.
  rewrite filter_In. unfold single_contract_filter.
  now rewrite Nat.eqb_eq.
Qed.

Lemma dict_get_KeyError d c :
  ~ In c (map fst d) -> dict_get d c = Raise KeyError.
Proof.
  induction d as [|[k v] d IH]; simpl; [reflexivity|].
  intros Hn. destruct (Ascii.eqb_spec c k) as [->|Hne].
  - exfalso. apply Hn. now left.
  - apply IH. intros Hin. apply Hn. now right.
Qed.

Lemma dict_get_exn d c e : dict_get d c = Raise e -> e = KeyError.
Proof.
  induction d as [|[k v] d IH]; simpl.
  - intros H; now injection H.
  - destruct (Ascii.eqb c k); [discriminate|exact IH].
Qed.

Lemma get_contract_year_exn row e :
  String.length (symbol row) = 4%nat ->
  _get_contract_year row = Raise e -> e = ValueError.
Proof.
  intros Hl. apply length_four_chars in Hl as (c0 & c1 & c2 & c3 & Hs).
  unfold _get_contract_year. rewrite Hs.
  unfold four_chars, str_index. cbn [String.get bind].
  unfold int_of_char.
  destruct ((48 <=? Z.of_nat (nat_of_ascii c3)) && (Z.of_nat (nat_of_ascii c3) <=? 57));
    cbn [bind].
  - destruct (_ <? _); discriminate.
  - intros H; now injection H.
Qed.

Lemma month_of_symbol_exn row e :
  String.length (symbol row) = 4%nat ->
  month_of_symbol row = Raise e -> e = KeyError.
Proof.
  intros Hl. apply length_four_chars in Hl as (c0 & c1 & c2 & c3 & Hs).
  unfold month_of_symbol. rewrite Hs.
  unfold four_chars, str_index. cbn [String.get bind].
  apply dict_get_exn.
Qed.


(** ** Near-roll date *)

(** C3. For the contract of May 2024 with the default offset 3, the 3rd
    business day from the end of the month is Wednesday 2024-05-29; three
    calendar days earlier is Sunday 2024-05-26, and [_get_near_roll_date]
    returns that Sunday unchanged.  Only a Saturday is moved one day
    earlier: for November 2023 the same steps reach Saturday 2023-11-25 and
    the function returns Friday 2023-11-24. *)
Theorem near_roll_date_sunday_kept :
  nth_error (rev (bdate_range 2024 5)) 2 = Some (mkDate 2024 5 29) /\
  sub_days (mkDate 2024 5 29) 3 = mkDate 2024 5 26 /\
  weekday (mkDate 2024 5 26) = 6 /\
  _get_near_roll_date 2024 5 3 = Ok (midnight (mkDate 2024 5 26)) /\
  weekday (sub_days (mkDate 2023 11 28) 3) = 5 /\
  _get_near_roll_date 2023 11 3 = Ok (midnight (mkDate 2023 11 24)).
Proof. repeat split; vm_compute; reflexivity. Qed.

(** ** Columns *)

Lemma shift_m1_cons {A : Type} (x : option A) (col : list (option A)) :
  shift_m1 (x :: col) =
  match col with [] => None | y :: _ => y end :: shift_m1 col.
Proof. destruct col; reflexivity. Qed.

Lemma shift_m1_length {A : Type} (col : list (option A)) :
  List.length (shift_m1 col) = List.length col.
Proof.
  destruct col; simpl; [reflexivity|]. rewrite length_app. simpl. lia.
Qed.

Lemma roll_gap_cons r rest :
  roll_gap (r :: rest) =
  match rest with
  | [] => None
  | r' :: _ => fsub (r_open r') (r_close r)
  end :: roll_gap rest.
Proof.
  unfold roll_gap. cbn [map]. rewrite shift_m1_cons. cbn [map2].
  destruct rest; reflexivity.
Qed.

Lemma is_roll_day_generic_cons r rest :
  is_roll_day_generic (r :: rest) =
  match rest with
  | [] => true
  | r' :: _ => negb (String.eqb (r_symbol r) (r_symbol r'))
  end :: is_roll_day_generic rest.
Proof.
  unfold is_roll_day_generic. cbn [map]. rewrite shift_m1_cons. cbn [map2].
  destruct rest; reflexivity.
Qed.

Lemma adjustment_generic_eq ndf :
  adjustment_generic ndf = map Some (adj_generic ndf).
Proof.
  induction ndf as [|r rest IH]; [reflexivity|].
  unfold adjustment_generic in *.
  rewrite is_roll_day_generic_cons, roll_gap_cons.
  unfold np_where in *. cbn [map2 nan_to_zero map adj_generic].
  fold (nan_to_zero (map2 (fun (c : bool) x => if c then x else Some 0)
                          (is_roll_day_generic rest) (roll_gap rest))).
  rewrite IH. f_equal.
  destruct rest as [|r' rest']; [reflexivity|].
  unfold gap_value.
  destruct (String.eqb (r_symbol r) (r_symbol r')); [reflexivity|].
  cbn [negb]. destruct (r_open r'), (r_close r); reflexivity.
Qed.

Lemma adjustment_near_eq ndf :
  adjustment_near ndf = map Some (adj_near ndf).
Proof.
  induction ndf as [|r rest IH]; [reflexivity|].
  unfold adjustment_near in *.
  rewrite roll_gap_cons.
  unfold np_where in *. cbn [map2 nan_to_zero map adj_near].
  fold (nan_to_zero (map2 (fun (c : bool) x => if c then x else Some 0)
                          (map is_roll_day_near rest) (roll_gap rest))).
  rewrite IH. f_equal.
  destruct rest as [|r' rest'].
  - now destruct (is_roll_day_near r).
  - unfold gap_value. destruct (is_roll_day_near r); [|reflexivity].
    destruct (r_open r'), (r_close r); reflexivity.
Qed.

Lemma adj_generic_length ndf : List.length (adj_generic ndf) = List.length ndf.
Proof. induction ndf; simpl; congruence. Qed.

Lemma adj_near_length ndf : List.length (adj_near ndf) = List.length ndf.
Proof. induction ndf; simpl; congruence. Qed.

Lemma sumZ_app l1 l2 : sumZ (l1 ++ l2) = sumZ l1 + sumZ l2.
Proof. induction l1; simpl; lia. Qed.

Lemma sumZ_rev l : sumZ (rev l) = sumZ l.
Proof. induction l; simpl; [reflexivity|]. rewrite sumZ_app. simpl. lia. Qed.

Lemma cumsum_from_app acc l1 l2 :
  cumsum_from acc (map Some l1 ++ l2) =
  cumsum_from acc (map Some l1) ++ cumsum_from (acc + sumZ l1) l2.
Proof.
  revert acc. induction l1 as [|x l1 IH]; intros acc; simpl.
  - now rewrite Z.add_0_r.
  - rewrite IH. do 3 f_equal. lia.
Qed.

Lemma rev_cumsum_Some zs :
  rev_cumsum (map Some zs) = map Some (suffix_sums zs).
Proof.
  unfold rev_cumsum, cumsum. induction zs as [|x zs IH]; [reflexivity|].
  cbn [map rev suffix_sums]. rewrite <- map_rev.
  change [Some x] with (map Some [x]) at 1.
  rewrite cumsum_from_app. rewrite rev_app_distr. simpl.
  rewrite map_rev, IH, sumZ_rev. do 2 f_equal. lia.
Qed.

Lemma shifted_totals_eq zs :
  nan_to_zero (shift_m1 (map Some (suffix_sums zs))) = map Some (tail_sums zs).
Proof.
  induction zs as [|x zs IH]; [reflexivity|].
  cbn [suffix_sums map tail_sums]. rewrite shift_m1_cons.
  cbn [nan_to_zero map]. fold (nan_to_zero (shift_m1 (map Some (suffix_sums zs)))).
  rewrite IH. f_equal. destruct zs; reflexivity.
Qed.

Lemma map_adjustment_set ndf :
  forall col, List.length col = List.length ndf ->
              map adjustment (map2 set_adjustment ndf col) = col.
Proof.
  induction ndf as [|r ndf IH]; intros [|a col]; simpl; try discriminate;
    try reflexivity.
  intros H. f_equal. apply IH. lia.
Qed.

Lemma map2_adjusted ndf :
  forall adj tot,
    map2 add_to_prices (map2 set_adjustment ndf (map Some adj)) (map Some tot) =
    adjusted ndf adj tot.
Proof.
  induction ndf as [|r ndf IH]; intros [|a adj] [|t tot]; simpl;
    try reflexivity.
  now rewrite IH.
Qed.

Lemma back_adjust_generic_eq ndf :
  back_adjust_generic ndf =
  adjusted ndf (adj_generic ndf) (suffix_sums (adj_generic ndf)).
Proof.
  unfold back_adjust_generic. rewrite adjustment_generic_eq.
  rewrite map_adjustment_set by (now rewrite length_map, adj_generic_length).
  rewrite rev_cumsum_Some. apply map2_adjusted.
Qed.

Lemma back_adjust_near_eq ndf :
  back_adjust_near ndf =
  adjusted ndf (adj_near ndf) (tail_sums (adj_near ndf)).
Proof.
  unfold back_adjust_near. rewrite adjustment_near_eq.
  rewrite map_adjustment_set by (now rewrite length_map, adj_near_length).
  rewrite rev_cumsum_Some, shifted_totals_eq. apply map2_adjusted.
Qed.

Lemma total_adjustment_generic_eq ndf :
  total_adjustment_generic ndf = map Some (suffix_sums (adj_generic ndf)).
Proof.
  unfold total_adjustment_generic.
  now rewrite adjustment_generic_eq, rev_cumsum_Some.
Qed.

Lemma total_adjustment_near_eq ndf :
  total_adjustment_near ndf = map Some (tail_sums (adj_near ndf)).
Proof.
  unfold total_adjustment_near.
  now rewrite adjustment_near_eq, rev_cumsum_Some, shifted_totals_eq.
Qed.


Lemma back_adjust_near_cons r rest :
  back_adjust_near (r :: rest) =
  add_to_prices
    (set_adjustment r (Some (hd 0 (adj_near (r :: rest)))))
    (Some (sumZ (adj_near rest)))
  :: back_adjust_near rest.
Proof. rewrite !back_adjust_near_eq. reflexivity. Qed.

(** ** Zero adjustments *)

Lemma fadd_zero p : fadd p (Some 0) = p.
Proof. destruct p; simpl; [f_equal; lia|reflexivity]. Qed.

Lemma sumZ_zeros {A : Type} (l : list A) : sumZ (map (fun _ => 0) l) = 0.
Proof. induction l; simpl; lia. Qed.

Lemma adjusted_zeros l :
  adjusted l (map (fun _ => 0) l) (suffix_sums (map (fun _ => 0) l)) =
  map (fun r => set_adjustment r (Some 0)) l.
Proof.
  induction l as [|r l IH]; [reflexivity|].
  cbn [map suffix_sums adjusted]. rewrite IH, sumZ_zeros. f_equal.
  unfold add_to_prices, set_adjustment. cbn.
  now rewrite !fadd_zero.
Qed.

(** ** Binary64 arithmetic *)

Lemma is_nan_of_spec x : Prim2SF x = S754_nan -> is_nan x = true.
Proof. intros H. unfold is_nan. now rewrite eqb_spec, H. Qed.

Lemma nan_sub_is_nan x : is_nan (nan - x)%float = true.
Proof.
  apply is_nan_of_spec. rewrite sub_spec.
  change (Prim2SF nan) with S754_nan. reflexivity.
Qed.

Lemma skipna_not_nan x : is_nan (skipna x) = false.
Proof.
  unfold skipna. destruct (is_nan x) eqn:E; [reflexivity|exact E].
Qed.

Lemma skipna_id x : is_nan x = false -> skipna x = x.
Proof. unfold skipna. now intros ->. Qed.




(** ** Columns of the binary64 engine *)

Lemma shift64_cons x col :
  shift64 (x :: col) =
  match col with
  | [] => nan
  | y :: _ => y
  end :: shift64 col.
Proof. destruct col; reflexivity. Qed.

Lemma roll_gap64_cons r rest :
  roll_gap64 (r :: rest) =
  match rest with
  | [] => (nan - close64 r)%float
  | r' :: _ => (open64 r' - close64 r)%float
  end :: roll_gap64 rest.
Proof.
  unfold roll_gap64. cbn [map]. rewrite shift64_cons. cbn [map2].
  destruct rest; reflexivity.
Qed.

Lemma is_roll_day_generic64_cons r rest :
  is_roll_day_generic64 (r :: rest) =
  match rest with
  | [] => true
  | r' :: _ => negb (String.eqb (symbol64 r) (symbol64 r'))
  end :: is_roll_day_generic64 rest.
Proof.
  unfold is_roll_day_generic64. cbn [map]. rewrite shift_m1_cons. cbn [map2].
  destruct rest; reflexivity.
Qed.

Lemma adjustment_generic64_eq ndf :
  adjustment_generic64 ndf = adj_generic64 ndf.
Proof.
  induction ndf as [|r rest IH]; [reflexivity|].
  unfold adjustment_generic64 in *.
  rewrite is_roll_day_generic64_cons, roll_gap64_cons.
  unfold np_where64, nan_to_zero64 in *. cbn [map2 map adj_generic64].
  rewrite IH. f_equal.
  destruct rest as [|r' rest'].
  - unfold skipna. now rewrite nan_sub_is_nan.
  - now destruct (String.eqb (symbol64 r) (symbol64 r')).
Qed.

Lemma adj_generic64_length ndf :
  List.length (adj_generic64 ndf) = List.length ndf.
Proof. induction ndf; simpl; congruence. Qed.

Lemma adj_generic64_not_nan ndf :
  Forall (fun x => is_nan x = false) (adj_generic64 ndf).
Proof.
  induction ndf as [|r rest IH]; constructor; [|exact IH].
  destruct rest as [|r' rest']; [reflexivity|].
  destruct (String.eqb _ _); [reflexivity|apply skipna_not_nan].
Qed.

Lemma final_app_one {A : Type} (l : list A) x : final (l ++ [x]) = Some x.
Proof.
  induction l as [|y l IH]; [reflexivity|].
  cbn [app final]. destruct (l ++ [x]) eqn:E; [now destruct l|exact IH].
Qed.

Lemma final_cons {A : Type} (x : A) l :
  final (x :: l) = match final l with None => Some x | Some t => Some t end.
Proof.
  revert x. induction l as [|y l IH]; intros x; [reflexivity|].
  change (final (x :: y :: l)) with (final (y :: l)).
  rewrite (IH y). now destruct (final l).
Qed.

Lemma final_rev {A : Type} (l : list A) : final (rev l) = hd_error l.
Proof. destruct l as [|x l]; [reflexivity|]. cbn [rev]. apply final_app_one. Qed.

Lemma accumulate64_snoc col :
  forall acc a,
    accumulate64 acc (col ++ [a]) =
    accumulate64 acc col ++
    [match final (accumulate64 acc col) with
     | None => (acc + a)%float
     | Some t => (t + a)%float
     end].
Proof.
  induction col as [|x col IH]; intros acc a; [reflexivity|].
  cbn [app accumulate64]. rewrite IH, final_cons. cbn [app].
  now destruct (final (accumulate64 (acc + x) col)).
Qed.

Lemma np_cumsum64_snoc col a :
  np_cumsum64 (col ++ [a]) =
  np_cumsum64 col ++
  [match final (np_cumsum64 col) with
   | None => a
   | Some t => (t + a)%float
   end].
Proof.
  destruct col as [|x col]; [reflexivity|].
  cbn [app np_cumsum64]. rewrite accumulate64_snoc, final_cons. cbn [app].
  now destruct (final (accumulate64 x col)).
Qed.

Lemma np_cumsum64_rev col : np_cumsum64 (rev col) = rev (totals64 col).
Proof.
  induction col as [|a col IH]; [reflexivity|].
  cbn [rev totals64]. rewrite np_cumsum64_snoc, IH, final_rev. f_equal.
  now destruct (totals64 col).
Qed.

Lemma np_cumsum64_length col : List.length (np_cumsum64 col) = List.length col.
Proof.
  destruct col as [|x col]; [reflexivity|]. cbn [np_cumsum64 List.length]. f_equal.
  revert x. induction col as [|y col IH]; intros x; [reflexivity|].
  cbn [accumulate64 List.length]. f_equal. apply IH.
Qed.

Lemma cumsum64_not_nan col :
  Forall (fun x => is_nan x = false) col -> cumsum64 col = np_cumsum64 col.
Proof.
  intros H. unfold cumsum64.
  assert (E : map skipna col = col).
  { induction H as [|x l Hx _ IH]; [reflexivity|].
    cbn [map]. now rewrite IH, (skipna_id _ Hx). }
  rewrite E. clear E.
  generalize (np_cumsum64_length col). generalize (np_cumsum64 col).
  induction H as [|x l Hx _ IH]; intros [|s sums]; try discriminate;
    [reflexivity|].
  cbn [map2 List.length]. intros Hl. rewrite Hx. f_equal. apply IH. lia.
Qed.

Lemma rev_cumsum64_not_nan col :
  Forall (fun x => is_nan x = false) col -> rev_cumsum64 col = totals64 col.
Proof.
  intros H. unfold rev_cumsum64.
  rewrite cumsum64_not_nan by (now apply Forall_rev).
  now rewrite np_cumsum64_rev, rev_involutive.
Qed.


Lemma map_adjustment64_set ndf :
  forall col, List.length col = List.length ndf ->
              map adjustment64 (map2 set_adjustment64 ndf col) = col.
Proof.
  induction ndf as [|r ndf IH]; intros [|a col]; simpl; try discriminate;
    try reflexivity.
  intros H. f_equal. apply IH. lia.
Qed.

Lemma totals64_length col : List.length (totals64 col) = List.length col.
Proof. induction col; simpl; congruence. Qed.

Lemma back_adjust_generic64_eq ndf :
  back_adjust_generic64 ndf =
  map2 add_to_prices64 (map2 set_adjustment64 ndf (adj_generic64 ndf))
       (totals64 (adj_generic64 ndf)).
Proof.
  unfold back_adjust_generic64. rewrite adjustment_generic64_eq.
  rewrite map_adjustment64_set by apply adj_generic64_length.
  now rewrite rev_cumsum64_not_nan by apply adj_generic64_not_nan.
Qed.

Lemma back_adjust_generic64_cons r rest :
  back_adjust_generic64 (r :: rest) =
  add_to_prices64
    (set_adjustment64 r (hd 0%float (adj_generic64 (r :: rest))))
    (hd 0%float (totals64 (adj_generic64 (r :: rest))))
  :: back_adjust_generic64 rest.
Proof. rewrite !back_adjust_generic64_eq. reflexivity. Qed.

Lemma back_adjust_generic64_length ndf :
  List.length (back_adjust_generic64 ndf) = List.length ndf.
Proof.
  induction ndf as [|r rest IH]; [reflexivity|].
  rewrite back_adjust_generic64_cons. simpl. now rewrite IH.
Qed.


(** ** The roll day in binary64 *)




(** On prices in cents the rounded expressions differ: the adjusted close of
    the roll day is 1438.7799999999997, the adjusted open of the next row
    is 1438.78. *)
Lemma generic_rounding_gap :
  ~ continuous_at_rolls64 (back_adjust_generic64 cent_rows).
Proof.
  intros H.
  remember (back_adjust_generic64 cent_rows) as out eqn:E.
  vm_compute in E. subst out.
  specialize (H 0%nat _ _ eq_refl eq_refl).
  cbn [symbol64 close64 open64] in H.
  assert (Hs : "GCX3"%string <> "GCZ3"%string) by discriminate.
  apply H in Hs.
  match type of Hs with
  | ?x = ?y =>
      assert (Hb : PrimFloat.eqb x y = true)
        by (rewrite Hs; vm_compute; reflexivity)
  end.
  vm_compute in Hb. discriminate Hb.
Qed.

(** ** The second run in binary64 *)











(** ** Undefined gaps *)






Lemma suffix_sums_length zs : List.length (suffix_sums zs) = List.length zs.
Proof. induction zs; simpl; congruence. Qed.

Lemma tail_sums_length zs : List.length (tail_sums zs) = List.length zs.
Proof. induction zs; simpl; congruence. Qed.

Lemma adjusted_columns ndf :
  forall adj tot,
    List.length adj = List.length ndf -> List.length tot = List.length ndf ->
    map adjustment (adjusted ndf adj tot) = map Some adj /\
    map index (adjusted ndf adj tot) = map index ndf /\
    map r_symbol (adjusted ndf adj tot) = map r_symbol ndf /\
    map expiry_length (adjusted ndf adj tot) = map expiry_length ndf.
Proof.
  induction ndf as [|r ndf IH]; intros [|a adj] [|t tot]; simpl;
    try discriminate; auto.
  intros H1 H2. destruct (IH adj tot) as (E1 & E2 & E3 & E4); [lia|lia|].
  now rewrite E1, E2, E3, E4.
Qed.

Lemma back_adjust_generic_columns ndf :
  map adjustment (back_adjust_generic ndf) = adjustment_generic ndf /\
  map index (back_adjust_generic ndf) = map index ndf /\
  map r_symbol (back_adjust_generic ndf) = map r_symbol ndf /\
  map expiry_length (back_adjust_generic ndf) = map expiry_length ndf.
Proof.
  rewrite back_adjust_generic_eq, adjustment_generic_eq.
  apply adjusted_columns; now rewrite ?suffix_sums_length, adj_generic_length.
Qed.

Lemma back_adjust_near_columns ndf :
  map adjustment (back_adjust_near ndf) = adjustment_near ndf /\
  map index (back_adjust_near ndf) = map index ndf /\
  map r_symbol (back_adjust_near ndf) = map r_symbol ndf /\
  map expiry_length (back_adjust_near ndf) = map expiry_length ndf.
Proof.
  rewrite back_adjust_near_eq, adjustment_near_eq.
  apply adjusted_columns; now rewrite ?tail_sums_length, adj_near_length.
Qed.



(** ** Order of the keys and sorting *)

Lemma lex_compare_refl a : lex_compare a a = Eq.
Proof. induction a as [|x a IH]; simpl; [reflexivity|]. now rewrite Z.compare_refl. Qed.

Lemma lex_compare_antisym a :
  forall b, lex_compare b a = CompOpp (lex_compare a b).
Proof.
  induction a as [|x a IH]; intros [|y b]; simpl; try reflexivity.
  rewrite (Z.compare_antisym x y). destruct (x ?= y); simpl; auto.
Qed.

Lemma lex_leb_refl a : lex_leb a a = true.
Proof. unfold lex_leb. now rewrite lex_compare_refl. Qed.

Lemma lex_leb_total a b : lex_leb a b = false -> lex_leb b a = true.
Proof.
  unfold lex_leb. rewrite (lex_compare_antisym a b).
  destruct (lex_compare a b); simpl; congruence.
Qed.

Lemma lex_leb_trans a :
  forall b c, lex_leb a b = true -> lex_leb b c = true -> lex_leb a c = true.
Proof.
  unfold lex_leb.
  induction a as [|x a IH]; intros [|y b] [|z c]; simpl; try congruence.
  destruct (Z.compare_spec x y), (Z.compare_spec y z), (Z.compare_spec x z);
    try congruence; try lia.
  apply IH.
Qed.

Lemma lex_ltb_leb a b : lex_ltb a b = negb (lex_leb b a).
Proof.
  unfold lex_ltb, lex_leb. rewrite (lex_compare_antisym a b).
  now destruct (lex_compare a b).
Qed.

Lemma date_eqb_eq a b : date_eqb a b = true <-> a = b.
Proof.
  unfold date_eqb. destruct a as [y m d], b as [y' m' d']. simpl.
  rewrite !andb_true_iff, !Z.eqb_eq. split.
  - intros [[-> ->] ->]. reflexivity.
  - intros H. injection H. auto.
Qed.

Lemma ts_eqb_eq a b : ts_eqb a b = true <-> a = b.
Proof.
  unfold ts_eqb. destruct a as [d s], b as [d' s']. simpl.
  rewrite andb_true_iff, date_eqb_eq, Z.eqb_eq. split.
  - intros [-> ->]. reflexivity.
  - intros H. injection H. auto.
Qed.

Lemma date_leb_of_keys a b x y :
  lex_leb (date_key a ++ [x]) (date_key b ++ [y]) = true -> date_leb a b = true.
Proof.
  unfold date_leb, lex_leb, date_key. simpl.
  destruct (year a ?= year b); try congruence; auto.
  destruct (month a ?= month b); try congruence; auto.
  destruct (day a ?= day b); try congruence; auto.
Qed.

Section Sorting.

Variable key : Row -> list Z.

Lemma insert_by_In r l x : In x (insert_by key r l) <-> x = r \/ In x l.
Proof.
  induction l as [|y l IH]; simpl; [intuition congruence|].
  destruct (lex_leb (key r) (key y)); simpl; [intuition congruence|].
  rewrite IH. intuition congruence.
Qed.

Lemma sort_by_In l x : In x (sort_by key l) <-> In x l.
Proof.
  induction l as [|y l IH]; simpl; [reflexivity|].
  rewrite insert_by_In, IH. intuition congruence.
Qed.

Lemma insert_by_sorted r l :
  StronglySorted (key_le key) l -> StronglySorted (key_le key) (insert_by key r l).
Proof.
  induction l as [|y l IH]; intros Hs; simpl.
  - constructor; constructor.
  - destruct (lex_leb (key r) (key y)) eqn:E.
    + constructor; [exact Hs|]. constructor; [exact E|].
      apply StronglySorted_inv in Hs as [_ Hy].
      eapply Forall_impl; [|exact Hy]. intros z Hz.
      unfold key_le in *. eapply lex_leb_trans; eauto.
    + apply StronglySorted_inv in Hs as [Hl Hy].
      constructor; [now apply IH|].
      apply Forall_forall. intros z Hz. apply insert_by_In in Hz as [->|Hz].
      * now apply lex_leb_total.
      * rewrite Forall_forall in Hy. now apply Hy.
Qed.

Lemma sort_by_sorted l : StronglySorted (key_le key) (sort_by key l).
Proof.
  induction l as [|r l IH]; simpl; [constructor|]. now apply insert_by_sorted.
Qed.

End Sorting.

Lemma sort_by_dates_sorted key l :
  (forall a b, lex_leb (key a) (key b) = true ->
               date_le (date (index a)) (date (index b))) ->
  StronglySorted date_le (dates (sort_by key l)).
Proof.
  intros Hk. pose proof (sort_by_sorted key l) as Hs.
  induction Hs as [|a l' Hs IH Ha]; simpl; constructor; [exact IH|].
  unfold dates. apply Forall_map. eapply Forall_impl; [|exact Ha].
  intros b Hb. now apply Hk.
Qed.

Lemma drop_duplicates_from_In l :
  forall seen r, In r (drop_duplicates_from seen l) -> In r l.
Proof.
  induction l as [|x l IH]; intros seen r; simpl; [tauto|].
  destruct (existsb _ seen); simpl; intros H.
  - right. eapply IH; eauto.
  - destruct H as [->|H]; [now left|right; eapply IH; eauto].
Qed.

Lemma drop_duplicates_from_sorted l :
  forall seen,
    StronglySorted date_le (dates l) ->
    StronglySorted date_le (dates (drop_duplicates_from seen l)).
Proof.
  induction l as [|x l IH]; intros seen Hs; simpl; [constructor|].
  simpl in Hs. apply StronglySorted_inv in Hs as [Hl Hx].
  destruct (existsb _ seen); [now apply IH|].
  simpl. constructor; [now apply IH|].
  apply Forall_forall. intros d Hd. rewrite Forall_forall in Hx. apply Hx.
  unfold dates in *. apply in_map_iff in Hd as (r & <- & Hr).
  apply (in_map (fun r => date (index r))). eapply drop_duplicates_from_In; eauto.
Qed.

Lemma drop_duplicates_from_NoDup l :
  forall seen,
    NoDup (dates (drop_duplicates_from seen l)) /\
    forall d, In d (dates (drop_duplicates_from seen l)) -> ~ In d seen.
Proof.
  induction l as [|x l IH]; intros seen; simpl.
  - split; [constructor|tauto].
  - destruct (existsb (date_eqb (date (index x))) seen) eqn:E; [apply IH|].
    destruct (IH (date (index x) :: seen)) as [Hn Hd]. simpl. split.
    + constructor; [|exact Hn]. intros Hin. apply (Hd _ Hin). now left.
    + intros d [<-|Hin].
      * intros Hs. assert (existsb (date_eqb (date (index x))) seen = true);
          [|congruence].
        apply existsb_exists. exists (date (index x)). split; [exact Hs|].
        now apply date_eqb_eq.
      * intros Hs. apply (Hd _ Hin). now right.
Qed.

Lemma dates_set_index_date l : dates (map set_index_date l) = dates l.
Proof. unfold dates. rewrite map_map. reflexivity. Qed.

Lemma dates_of_index l l' : map index l = map index l' -> dates l = dates l'.
Proof.
  unfold dates. intros H.
  rewrite <- (map_map index date l), <- (map_map index date l'). now rewrite H.
Qed.

Lemma select_generic_dates_sorted df length :
  StronglySorted date_le (dates (select_generic df length)).
Proof.
  unfold select_generic. rewrite dates_set_index_date.
  apply drop_duplicates_from_sorted, sort_by_dates_sorted.
  intros a b. apply date_leb_of_keys.
Qed.

Lemma select_near_dates_sorted df :
  StronglySorted date_le (dates (select_near df)).
Proof.
  unfold select_near. apply sort_by_dates_sorted.
  intros a b. apply date_leb_of_keys.
Qed.

Lemma final_sorted_max ds :
  StronglySorted date_le ds ->
  forall m, final ds = Some m -> forall d, In d ds -> date_le d m.
Proof.
  induction 1 as [|a l Hs IH Ha]; intros m Hm d Hd; [destruct Hd|].
  simpl in Hm. destruct l as [|b l'].
  - injection Hm as <-. destruct Hd as [<-|[]]. apply lex_leb_refl.
  - destruct Hd as [<-|Hd]; [|now apply (IH m)].
    unfold date_le in *. eapply lex_leb_trans.
    + rewrite Forall_forall in Ha. apply (Ha b). now left.
    + apply (IH m Hm b). now left.
Qed.

Lemma final_map {A B : Type} (f : A -> B) l :
  final (map f l) = option_map f (final l).
Proof.
  induction l as [|x l IH]; [reflexivity|].
  simpl. destruct l; [reflexivity|exact IH].
Qed.

(** ** The last row *)

Lemma final_cons2 {A : Type} (x y : A) l : final (x :: y :: l) = final (y :: l).
Proof. reflexivity. Qed.

Lemma final_adj_generic ndf s : final ndf = Some s -> final (adj_generic ndf) = Some 0.
Proof.
  induction ndf as [|r rest IH]; [discriminate|].
  destruct rest as [|r' rest']; [reflexivity|].
  rewrite final_cons2. intros H. specialize (IH H).
  change (adj_generic (r :: r' :: rest'))
    with (hd 0 (adj_generic (r :: r' :: rest')) :: adj_generic (r' :: rest')).
  destruct (adj_generic (r' :: rest')); [discriminate|exact IH].
Qed.

Lemma final_adj_near ndf s : final ndf = Some s -> final (adj_near ndf) = Some 0.
Proof.
  induction ndf as [|r rest IH]; [discriminate|].
  destruct rest as [|r' rest']; [reflexivity|].
  rewrite final_cons2. intros H. specialize (IH H).
  change (adj_near (r :: r' :: rest'))
    with (hd 0 (adj_near (r :: r' :: rest')) :: adj_near (r' :: rest')).
  destruct (adj_near (r' :: rest')); [discriminate|exact IH].
Qed.

Lemma final_suffix_sums zs x : final zs = Some x -> final (suffix_sums zs) = Some x.
Proof.
  induction zs as [|z zs IH]; [discriminate|].
  destruct zs as [|z' zs'].
  - simpl. intros H; injection H as ->. f_equal. lia.
  - rewrite final_cons2. intros H. specialize (IH H).
    cbn [suffix_sums] in *. exact IH.
Qed.

Lemma final_tail_sums zs x : final zs = Some x -> final (tail_sums zs) = Some 0.
Proof.
  induction zs as [|z zs IH]; [discriminate|].
  destruct zs as [|z' zs']; [reflexivity|].
  rewrite final_cons2. intros H. specialize (IH H).
  cbn [tail_sums] in *. exact IH.
Qed.

Lemma final_adjusted ndf :
  forall adj tot s a t,
    List.length adj = List.length ndf -> List.length tot = List.length ndf ->
    final ndf = Some s -> final adj = Some a -> final tot = Some t ->
    final (adjusted ndf adj tot) =
    Some (add_to_prices (set_adjustment s (Some a)) (Some t)).
Proof.
  induction ndf as [|r rest IH]; intros [|a0 adj] [|t0 tot] s a t L1 L2 Hs Ha Ht;
    try discriminate.
  destruct rest as [|r' rest'].
  - destruct adj, tot; try discriminate.
    simpl in *. congruence.
  - destruct adj as [|a1 adj], tot as [|t1 tot]; try discriminate.
    rewrite final_cons2 in Hs. rewrite final_cons2 in Ha. rewrite final_cons2 in Ht.
    change (adjusted (r :: r' :: rest') (a0 :: a1 :: adj) (t0 :: t1 :: tot))
      with (add_to_prices (set_adjustment r (Some a0)) (Some t0)
            :: add_to_prices (set_adjustment r' (Some a1)) (Some t1)
            :: adjusted rest' adj tot).
    rewrite final_cons2.
    apply (IH (a1 :: adj) (t1 :: tot) s a t); simpl in *; auto; lia.
Qed.

Lemma prices_unadjusted s : prices (add_to_prices (set_adjustment s (Some 0)) (Some 0)) = prices s.
Proof.
  unfold prices, add_to_prices, set_adjustment. cbn. now rewrite !fadd_zero.
Qed.

Lemma latest_generic ndf s :
  StronglySorted date_le (dates ndf) ->
  final ndf = Some s ->
  final (total_adjustment_generic ndf) = Some (Some 0) /\
  exists a,
    final (back_adjust_generic ndf) = Some a /\
    index a = index s /\ adjustment a = Some 0 /\ prices a = prices s /\
    forall r, In r (back_adjust_generic ndf) ->
              date_le (date (index r)) (date (index a)).
Proof.
  intros Hsorted Hs.
  pose proof (final_adj_generic _ _ Hs) as Ha.
  pose proof (final_suffix_sums _ _ Ha) as Ht.
  split.
  - rewrite total_adjustment_generic_eq, final_map, Ht. reflexivity.
  - eexists. split.
    + rewrite back_adjust_generic_eq.
      apply final_adjusted; eauto;
        now rewrite ?suffix_sums_length, adj_generic_length.
    + split; [reflexivity|]. split; [reflexivity|].
      split; [apply prices_unadjusted|].
      intros r Hr. cbn [index add_to_prices set_adjustment].
      destruct (back_adjust_generic_columns ndf) as (_ & Hidx & _).
      apply dates_of_index in Hidx.
      apply (final_sorted_max _ Hsorted).
      * unfold dates. rewrite final_map, Hs. reflexivity.
      * rewrite <- Hidx. now apply (in_map (fun r => date (index r))).
Qed.

Lemma latest_near ndf s :
  StronglySorted date_le (dates ndf) ->
  final ndf = Some s ->
  final (total_adjustment_near ndf) = Some (Some 0) /\
  exists a,
    final (back_adjust_near ndf) = Some a /\
    index a = index s /\ adjustment a = Some 0 /\ prices a = prices s /\
    forall r, In r (back_adjust_near ndf) ->
              date_le (date (index r)) (date (index a)).
Proof.
  intros Hsorted Hs.
  pose proof (final_adj_near _ _ Hs) as Ha.
  pose proof (final_tail_sums _ _ Ha) as Ht.
  split.
  - rewrite total_adjustment_near_eq, final_map, Ht. reflexivity.
  - eexists. split.
    + rewrite back_adjust_near_eq.
      apply final_adjusted; eauto;
        now rewrite ?tail_sums_length, adj_near_length.
    + split; [reflexivity|]. split; [reflexivity|].
      split; [apply prices_unadjusted|].
      intros r Hr. cbn [index add_to_prices set_adjustment].
      destruct (back_adjust_near_columns ndf) as (_ & Hidx & _).
      apply dates_of_index in Hidx.
      apply (final_sorted_max _ Hsorted).
      * unfold dates. rewrite final_map, Hs. reflexivity.
      * rewrite <- Hidx. now apply (in_map (fun r => date (index r))).
Qed.

(** C2. Whenever the selected series is not empty, the last row of the
    output of [create_rolled_series] and of [near_roll] has the latest date
    of the output, its total adjustment is [0], and its open, high, low and
    close are those of the raw selected bar. *)
Theorem latest_row_unadjusted (df : list Row) (length : Z) :
  (forall s,
      final (select_generic df length) = Some s ->
      final (total_adjustment_generic (select_generic df length)) = Some (Some 0) /\
      exists a,
        final (create_rolled_series df length) = Some a /\
        index a = index s /\ adjustment a = Some 0 /\ prices a = prices s /\
        forall r, In r (create_rolled_series df length) ->
                  date_le (date (index r)) (date (index a))) /\
  (forall s,
      final (select_near df) = Some s ->
      final (total_adjustment_near (select_near df)) = Some (Some 0) /\
      exists a,
        final (near_roll df) = Some a /\
        index a = index s /\ adjustment a = Some 0 /\ prices a = prices s /\
        forall r, In r (near_roll df) ->
                  date_le (date (index r)) (date (index a))).
Proof.
  split; intros s Hs.
  - apply latest_generic; [apply select_generic_dates_sorted|exact Hs].
  - apply latest_near; [apply select_near_dates_sorted|exact Hs].
Qed.

(** ** The generic selector *)

Lemma select_generic_In df length r :
  In r (select_generic df length) ->
  exists r0, In r0 df /\ isin_lengths length r0 = true /\ r = set_index_date r0.
Proof.
  unfold select_generic. intros H.
  apply in_map_iff in H as (r0 & <- & H).
  apply drop_duplicates_from_In in H. apply sort_by_In in H.
  apply filter_In in H as [H1 H2]. now exists r0.
Qed.

(** C6. For every annotated input and every target length [N], each row of
    the output of [create_rolled_series] has [expiry_length] equal to [N] or
    [N + 1], and no two rows of the output have the same calendar date. *)
Theorem generic_selector_invariant (df : list Row) (length : Z) :
  Forall (fun r => expiry_length r = length \/ expiry_length r = length + 1)
         (create_rolled_series df length) /\
  NoDup (dates (create_rolled_series df length)) /\
  generic_roll df length = create_rolled_series df length.
Proof.
  unfold create_rolled_series.
  destruct (back_adjust_generic_columns (select_generic df length))
    as (_ & Hidx & _ & Hexp).
  split; [|split; [|reflexivity]].
  - assert (H : Forall (fun e => e = length \/ e = length + 1)
                       (map expiry_length (back_adjust_generic (select_generic df length)))).
    { rewrite Hexp. apply Forall_map, Forall_forall. intros r Hr.
      apply select_generic_In in Hr as (r0 & _ & Hin & ->).
      unfold isin_lengths in Hin. cbn [expiry_length set_index_date].
      apply orb_true_iff in Hin as [Hin|Hin]; apply Z.eqb_eq in Hin; auto. }
    now apply Forall_map in H.
  - rewrite (dates_of_index _ _ Hidx). unfold select_generic.
    rewrite dates_set_index_date. apply drop_duplicates_from_NoDup.
Qed.

(** ** Rows produced by the annotator *)

Lemma dict_month_range c m : dict_get FUTURE_MONTH_MAP c = Ok m -> 1 <= m <= 12.
Proof.
  unfold FUTURE_MONTH_MAP. simpl.
  repeat (destruct (Ascii.eqb c _); [intros H; injection H as <-; lia|]).
  discriminate.
Qed.

Lemma month_of_symbol_range b m : month_of_symbol b = Ok m -> 1 <= m <= 12.
Proof.
  unfold month_of_symbol. destruct (str_index (symbol b) 2); cbn [bind];
    [apply dict_month_range|discriminate].
Qed.





(** ** The two subsets of the near-roll selector *)



Lemma aligned_roll_date_Some frdf t R :
  aligned_roll_date frdf t = Some R ->
  exists f, In f frdf /\ index f = t /\ contract_roll_date f = Some R.
Proof.
  unfold aligned_roll_date.
  destruct (find _ frdf) as [f|] eqn:E; [|discriminate].
  apply find_some in E as [Hin He]. apply ts_eqb_eq in He.
  intros H. now exists f.
Qed.


Lemma adj_sdf_In df s' :
  In s' (adj_sdf df) <->
  exists s,
    In s (second_month df) /\
    s' = set_fm_roll_date s (aligned_roll_date (front_month df) (index s)) /\
    on_or_after_fm_roll_date s' = true.
Proof.
  unfold adj_sdf. rewrite filter_In, in_map_iff. split.
  - intros [(s & <- & Hs) Ho]. now exists s.
  - intros (s & Hs & -> & Ho). split; [now exists s|exact Ho].
Qed.





(** ** The continuity law under the near-roll policy *)


(** ** Instances on the sample tables *)

Lemma latest_row_unadjusted_witness :
  (exists a, final (create_rolled_series generic_df 1) = Some a /\
             adjustment a = Some 0 /\ r_close a = Some 108) /\
  (exists a, final (near_roll shifted_df) = Some a /\
             adjustment a = Some 0 /\ r_close a = Some 107).
Proof.
  destruct (latest_row_unadjusted generic_df 1) as [Hg _].
  destruct (latest_row_unadjusted shifted_df 0) as [_ Hn].
  split.
  - edestruct Hg as (_ & a & Hfin & _ & Hadj & Hp & _); [vm_compute; reflexivity|].
    exists a. split; [exact Hfin|]. split; [exact Hadj|].
    apply (f_equal snd) in Hp. exact Hp.
  - edestruct Hn as (_ & a & Hfin & _ & Hadj & Hp & _); [vm_compute; reflexivity|].
    exists a. split; [exact Hfin|]. split; [exact Hadj|].
    apply (f_equal snd) in Hp. exact Hp.
Defined.


(** * Further properties *)

(** ** Calendar steps *)

Lemma days_in_month_range y m : 28 <= days_in_month y m <= 31.
Proof.
  unfold days_in_month.
  destruct (m =? 2); [destruct (is_leap y); lia|].
  destruct ((m =? 4) || (m =? 6) || (m =? 9) || (m =? 11)); lia.
Qed.

Lemma days_before_month_succ y m :
  1 <= m < 12 ->
  days_before_month y (m + 1) = days_before_month y m + days_in_month y m.
Proof.
  intros Hm.
  assert (m = 1 \/ m = 2 \/ m = 3 \/ m = 4 \/ m = 5 \/ m = 6 \/ m = 7 \/
          m = 8 \/ m = 9 \/ m = 10 \/ m = 11) as H by lia.
  unfold days_before_month, days_in_month.
  repeat (destruct H as [->|H]; [simpl; destruct (is_leap y); reflexivity|]).
  subst. simpl. destruct (is_leap y); reflexivity.
Qed.

Lemma days_before_year_succ y :
  days_before_year (y + 1) = days_before_year y + (if is_leap y then 366 else 365).
Proof.
  unfold days_before_year, is_leap.
  replace (y + 1 - 1) with y by lia.
  destruct (Z.eqb_spec (y mod 4) 0), (Z.eqb_spec (y mod 100) 0),
    (Z.eqb_spec (y mod 400) 0); simpl; Z.div_mod_to_equations; lia.
Qed.

Lemma days_before_month_first y : days_before_month y 1 = 0.
Proof. reflexivity. Qed.

Lemma days_before_month_last y :
  days_before_month y 12 + 31 = if is_leap y then 366 else 365.
Proof. unfold days_before_month. simpl. destruct (is_leap y); reflexivity. Qed.

Lemma prev_day_valid d : valid_date d -> valid_date (prev_day d).
Proof.
  unfold valid_date, prev_day. intros [Hm Hd].
  destruct (Z.ltb_spec 1 (day d)); simpl; [lia|].
  destruct (Z.ltb_spec 1 (month d)); simpl.
  - pose proof (days_in_month_range (year d) (month d - 1)). lia.
  - split; [lia|]. vm_compute. split; discriminate.
Qed.

Lemma next_day_valid d : valid_date d -> valid_date (next_day d).
Proof.
  unfold valid_date, next_day. intros [Hm Hd].
  destruct (Z.ltb_spec (day d) (days_in_month (year d) (month d))); simpl; [lia|].
  destruct (Z.ltb_spec (month d) 12); simpl.
  - pose proof (days_in_month_range (year d) (month d + 1)). lia.
  - pose proof (days_in_month_range (year d + 1) 1). lia.
Qed.

Lemma toordinal_prev_day d : valid_date d -> toordinal (prev_day d) = toordinal d - 1.
Proof.
  unfold valid_date, prev_day, toordinal. intros [Hm Hd].
  destruct (Z.ltb_spec 1 (day d)); simpl; [lia|].
  destruct (Z.ltb_spec 1 (month d)); simpl.
  - pose proof (days_before_month_succ (year d) (month d - 1) ltac:(lia)) as E.
    replace (month d - 1 + 1) with (month d) in E by lia. lia.
  - assert (month d = 1) as -> by lia. rewrite days_before_month_first.
    pose proof (days_before_year_succ (year d - 1)) as E.
    replace (year d - 1 + 1) with (year d) in E by lia.
    pose proof (days_before_month_last (year d - 1)).
    destruct (is_leap (year d - 1)); lia.
Qed.

Lemma toordinal_next_day d : valid_date d -> toordinal (next_day d) = toordinal d + 1.
Proof.
  unfold valid_date, next_day, toordinal. intros [Hm Hd].
  destruct (Z.ltb_spec (day d) (days_in_month (year d) (month d))); simpl; [lia|].
  destruct (Z.ltb_spec (month d) 12); simpl.
  - pose proof (days_before_month_succ (year d) (month d) ltac:(lia)). lia.
  - assert (month d = 12) as Em by lia. rewrite Em in *.
    rewrite days_before_month_first.
    pose proof (days_before_year_succ (year d)).
    pose proof (days_before_month_last (year d)).
    assert (days_in_month (year d) 12 = 31) by reflexivity.
    destruct (is_leap (year d)); lia.
Qed.

Lemma iter_prev_day n d :
  valid_date d ->
  valid_date (Nat.iter n prev_day d) /\
  toordinal (Nat.iter n prev_day d) = toordinal d - Z.of_nat n.
Proof.
  intros Hv. induction n as [|n [IHv IHo]]; [simpl; split; [exact Hv|lia]|].
  change (Nat.iter (S n) prev_day d) with (prev_day (Nat.iter n prev_day d)).
  split; [now apply prev_day_valid|].
  rewrite toordinal_prev_day by exact IHv. lia.
Qed.

Lemma iter_next_day n d :
  valid_date d ->
  valid_date (Nat.iter n next_day d) /\
  toordinal (Nat.iter n next_day d) = toordinal d + Z.of_nat n.
Proof.
  intros Hv. induction n as [|n [IHv IHo]]; [simpl; split; [exact Hv|lia]|].
  change (Nat.iter (S n) next_day d) with (next_day (Nat.iter n next_day d)).
  split; [now apply next_day_valid|].
  rewrite toordinal_next_day by exact IHv. lia.
Qed.

Lemma sub_days_ordinal d k :
  valid_date d ->
  valid_date (sub_days d k) /\ toordinal (sub_days d k) = toordinal d - k.
Proof.
  intros Hv. unfold sub_days. destruct (Z.leb_spec 0 k).
  - destruct (iter_prev_day (Z.to_nat k) d Hv) as [H1 H2]. split; [exact H1|]. lia.
  - destruct (iter_next_day (Z.to_nat (- k)) d Hv) as [H1 H2]. split; [exact H1|]. lia.
Qed.

Lemma weekday_in_month y m d :
  weekday (mkDate y m d) =
  ((days_before_year y + days_before_month y m + 6) mod 7 + d) mod 7.
Proof.
  unfold weekday, toordinal. cbn [year month day].
  rewrite Z.add_mod_idemp_l by lia. f_equal. lia.
Qed.

Lemma days_in_month_cases y m :
  days_in_month y m = 28 \/ days_in_month y m = 29 \/
  days_in_month y m = 30 \/ days_in_month y m = 31.
Proof.
  unfold days_in_month.
  destruct (m =? 2); [destruct (is_leap y); auto|].
  destruct ((m =? 4) || (m =? 6) || (m =? 9) || (m =? 11)); auto.
Qed.

Lemma bdate_range_eq y m :
  bdate_range y m =
  filter (fun d => ((days_before_year y + days_before_month y m + 6) mod 7 + day d) mod 7 <? 5)
         (map (fun k => mkDate y m (Z.of_nat k))
              (seq 1 (Z.to_nat (days_in_month y m)))).
Proof.
  unfold bdate_range. apply filter_ext_in. intros d Hd.
  apply in_map_iff in Hd as (k & <- & _). now rewrite weekday_in_month.
Qed.

Lemma third_last_business_day y m :
  exists d,
    nth_error (rev (bdate_range y m)) 2 = Some (mkDate y m d) /\
    days_in_month y m - 4 <= d <= days_in_month y m - 2.
Proof.
  rewrite bdate_range_eq.
  pose proof (Z.mod_pos_bound (days_before_year y + days_before_month y m + 6) 7
                              ltac:(lia)) as Hw.
  set (w := (days_before_year y + days_before_month y m + 6) mod 7) in *.
  assert (Hc : w = 0 \/ w = 1 \/ w = 2 \/ w = 3 \/ w = 4 \/ w = 5 \/ w = 6) by lia.
  clearbody w.
  destruct (days_in_month_cases y m) as [E|[E|[E|E]]]; rewrite E;
    repeat (destruct Hc as [->|Hc]; [eexists; split; [vm_compute; reflexivity|lia]|]);
    subst w; eexists; (split; [vm_compute; reflexivity|lia]).
Qed.

Lemma third_last_business_day_weekday y m b :
  nth_error (rev (bdate_range y m)) 2 = Some b -> 0 <= weekday b < 5.
Proof.
  intros H. apply nth_error_In, in_rev in H.
  unfold bdate_range in H. apply filter_In in H as [_ H].
  apply Z.ltb_lt in H. split; [|exact H].
  unfold weekday. apply Z.mod_pos_bound. lia.
Qed.

Lemma iter_prev_day_same_month y m n :
  forall d, Z.of_nat n < d ->
            Nat.iter n prev_day (mkDate y m d) = mkDate y m (d - Z.of_nat n).
Proof.
  induction n as [|n IH]; intros d Hd.
  - simpl. f_equal. lia.
  - change (Nat.iter (S n) prev_day (mkDate y m d))
      with (prev_day (Nat.iter n prev_day (mkDate y m d))).
    rewrite IH by lia. unfold prev_day. cbn [year month day].
    destruct (Z.ltb_spec 1 (d - Z.of_nat n)); [|lia]. f_equal. lia.
Qed.

Lemma sub_days_same_month y m d k :
  0 <= k < d -> sub_days (mkDate y m d) k = mkDate y m (d - k).
Proof.
  intros Hk. unfold sub_days. destruct (Z.leb_spec 0 k); [|lia].
  rewrite iter_prev_day_same_month by lia. f_equal. lia.
Qed.

Lemma weekday_prev_day d :
  valid_date d -> weekday d = 5 -> weekday (prev_day d) = 4.
Proof.
  intros Hv. unfold weekday. rewrite toordinal_prev_day by exact Hv.
  intros H. Z.div_mod_to_equations. lia.
Qed.

Lemma near_roll_date_steps y m k R :
  _get_near_roll_date y m k = Ok R ->
  1 <= m <= 12 /\
  exists b,
    nth_error (rev (bdate_range y m)) 2 = Some b /\
    R = midnight (if weekday (sub_days b k) =? 5
                  then prev_day (sub_days b k) else sub_days b k).
Proof.
  unfold _get_near_roll_date.
  destruct ((1 <=? m) && (m <=? 12)) eqn:Em; cbn [negb]; [|discriminate].
  apply andb_true_iff in Em as [E1 E2]. apply Z.leb_le in E1, E2.
  destruct (nth_error (rev (bdate_range y m)) 2) as [b|]; [|discriminate].
  intros H. split; [lia|]. exists b. split; [reflexivity|].
  destruct (weekday (sub_days b k) =? 5); now injection H as <-.
Qed.

Lemma near_roll_date_defined y m k :
  1 <= m <= 12 -> exists R, _get_near_roll_date y m k = Ok R.
Proof.
  intros Hm. unfold _get_near_roll_date.
  destruct (Z.leb_spec 1 m); [|lia]. destruct (Z.leb_spec m 12); [|lia].
  cbn [andb negb].
  destruct (third_last_business_day y m) as (d & -> & _).
  destruct (weekday _ =? 5); eauto.
Qed.

Lemma near_roll_date_in_month y m k R :
  0 <= k <= 22 ->
  _get_near_roll_date y m k = Ok R ->
  year (date R) = y /\ month (date R) = m /\
  days_in_month y m - 5 - k <= day (date R) <= days_in_month y m - 2 - k.
Proof.
  intros Hk H. apply near_roll_date_steps in H as (Hm & b & Hb & ->).
  destruct (third_last_business_day y m) as (d & Hd & Hr).
  rewrite Hb in Hd. injection Hd as ->.
  pose proof (days_in_month_range y m).
  rewrite sub_days_same_month by lia. cbn [date midnight].
  destruct (weekday (mkDate y m (d - k)) =? 5).
  - unfold prev_day. cbn [year month day].
    destruct (Z.ltb_spec 1 (d - k)); [|lia]. cbn. lia.
  - cbn. lia.
Qed.

(** ** The annotator, row by row *)

Lemma apply_rows_Ok_intro {A B : Type} (f : A -> result B) l :
  (forall x, In x l -> exists v, f x = Ok v) -> exists out, apply_rows f l = Ok out.
Proof.
  induction l as [|x l IH]; intros H; simpl; [eauto|].
  destruct (H x (or_introl eq_refl)) as [v ->].
  destruct IH as [vs ->]; [intros y Hy; apply H; now right|].
  simpl. eauto.
Qed.

Lemma apply_rows_Ok_In {A B : Type} (f : A -> result B) l :
  forall out, apply_rows f l = Ok out ->
              forall v, In v out -> exists x, In x l /\ f x = Ok v.
Proof.
  induction l as [|x l IH]; intros out H v Hv.
  - injection H as <-. destruct Hv.
  - apply apply_rows_Ok_cons in H as (v0 & vs & -> & Hx & Hl).
    destruct Hv as [<-|Hv]; [exists x; split; [now left|exact Hx]|].
    destruct (IH vs Hl v Hv) as (y & Hy & Hfy). exists y. split; [now right|exact Hfy].
Qed.

Lemma month_codes_keys : map fst FUTURE_MONTH_MAP = month_codes.
Proof. reflexivity. Qed.

Lemma dict_get_Ok_In c m : dict_get FUTURE_MONTH_MAP c = Ok m -> In c month_codes.
Proof.
  intros H. destruct (in_dec ascii_dec c month_codes) as [Hin|Hn]; [exact Hin|].
  rewrite <- month_codes_keys in Hn. apply dict_get_KeyError in Hn. congruence.
Qed.

Lemma dict_get_In_Ok c : In c month_codes -> exists m, dict_get FUTURE_MONTH_MAP c = Ok m.
Proof.
  unfold month_codes. simpl. intros H.
  repeat (destruct H as [<-|H]; [eexists; reflexivity|]). destruct H.
Qed.

Lemma decodable_iff b :
  String.length (symbol b) = 4%nat ->
  (decodable b <->
   (exists y, _get_contract_year b = Ok y) /\ (exists m, month_of_symbol b = Ok m)).
Proof.
  intros Hl. apply length_four_chars in Hl as (c0 & c1 & c2 & c3 & Hs).
  unfold _get_contract_year, month_of_symbol. rewrite Hs.
  unfold four_chars, str_index. cbn [String.get bind]. split.
  - intros (a0 & a1 & a2 & a3 & Ha & Hm & d & Hd).
    rewrite Hs in Ha. unfold four_chars in Ha. injection Ha as -> -> -> ->.
    rewrite Hd. cbn [bind]. split; [|now apply dict_get_In_Ok].
    destruct (_ <? _); eauto.
  - intros [[y Hy] [m Hm]]. exists c0, c1, c2, c3. split; [exact Hs|].
    split; [eapply dict_get_Ok_In; eauto|].
    destruct (int_of_char c3) as [d|] eqn:Ed; [now exists d|discriminate].
Qed.

Lemma assemble_spec (nr : bool) k fdf :
  forall ys ms es rs,
    apply_rows _get_contract_year fdf = Ok ys ->
    apply_rows month_of_symbol fdf = Ok ms ->
    apply_rows _get_expiry_length (combine fdf ys) = Ok es ->
    (if nr
     then apply_rows (fun ym : Z * Z => r <- _get_near_roll_date (fst ym) (snd ym) k ;; Ok (Some r))
                     (combine ys ms)
     else Ok (map (fun _ => @None Timestamp) fdf)) = Ok rs ->
    Forall2 (annotation_of nr k) fdf (assemble fdf ys ms es rs).
Proof.
  induction fdf as [|b fdf IH]; intros ys ms es rs Hys Hms Hes Hrs.
  - constructor.
  - apply apply_rows_Ok_cons in Hys as (y & ys' & -> & Hy & Hys).
    apply apply_rows_Ok_cons in Hms as (m & ms' & -> & Hm & Hms).
    cbn [combine] in Hes, Hrs.
    apply apply_rows_Ok_cons in Hes as (e & es' & -> & He & Hes).
    assert (exists r rs', rs = r :: rs' /\
              (if nr then exists R, _get_near_roll_date y m k = Ok R /\ r = Some R
               else r = None) /\
              (if nr
               then apply_rows (fun ym : Z * Z => r <- _get_near_roll_date (fst ym) (snd ym) k ;; Ok (Some r))
                               (combine ys' ms')
               else Ok (map (fun _ => @None Timestamp) fdf)) = Ok rs')
      as (r & rs' & -> & Hr & Hrs').
    { destruct nr.
      - apply apply_rows_Ok_cons in Hrs as (r & rs' & -> & Hr & Hrs).
        exists r, rs'. split; [reflexivity|]. split; [|exact Hrs].
        cbn [fst snd] in Hr.
        destruct (_get_near_roll_date y m k) as [R|]; cbn [bind] in Hr; [|discriminate].
        injection Hr as <-. now exists R.
      - cbn [map] in Hrs. injection Hrs as <-. eauto. }
    cbn [assemble]. constructor; [|now apply IH].
    unfold annotation_of, annotate, prices. cbn.
    repeat split; try assumption.
    unfold _get_expiry_length in He. cbn [fst snd] in He.
    rewrite Hm in He. cbn [bind] in He. now injection He as <-.
Qed.

Lemma combine_features_spec df nr k out :
  combine_features df nr k = Ok out ->
  Forall2 (annotation_of nr k) (filter single_contract_filter df) out.
Proof.
  intros Hout. apply combine_features_Ok in Hout as [_ Hout].
  revert Hout. unfold decode_columns.
  set (fdf := filter single_contract_filter df).
  destruct (apply_rows _get_contract_year fdf) as [ys|] eqn:Hys;
    cbn [bind]; [|discriminate].
  destruct (apply_rows month_of_symbol fdf) as [ms|] eqn:Hms;
    cbn [bind]; [|discriminate].
  destruct (apply_rows _get_expiry_length (combine fdf ys)) as [es|] eqn:Hes;
    cbn [bind]; [|discriminate].
  destruct (if nr then _ else _) as [rs|] eqn:Hrs; cbn [bind]; [|discriminate].
  intros H; injection H as <-. now apply assemble_spec.
Qed.

Lemma Forall2_In_l {A B : Type} (R : A -> B -> Prop) l l' a :
  Forall2 R l l' -> In a l -> exists b, In b l' /\ R a b.
Proof.
  induction 1 as [|x y l l' Hxy _ IH]; intros Ha; [destruct Ha|].
  destruct Ha as [<-|Ha]; [exists y; split; [now left|exact Hxy]|].
  destruct (IH Ha) as (b & Hb & HR). exists b. split; [now right|exact HR].
Qed.

Lemma Forall2_In_r {A B : Type} (R : A -> B -> Prop) l l' b :
  Forall2 R l l' -> In b l' -> exists a, In a l /\ R a b.
Proof.
  induction 1 as [|x y l l' Hxy _ IH]; intros Hb; [destruct Hb|].
  destruct Hb as [<-|Hb]; [exists x; split; [now left|exact Hxy]|].
  destruct (IH Hb) as (a & Ha & HR). exists a. split; [now right|exact HR].
Qed.

Lemma combine_features_succeeds df nr k :
  (exists b, In b df /\ String.length (symbol b) = 4%nat) ->
  (forall b, In b df -> String.length (symbol b) = 4%nat -> decodable b) ->
  exists out, combine_features df nr k = Ok out.
Proof.
  intros (b0 & Hb0 & Hl0) Hdec.
  rewrite combine_features_nonempty
    by (apply (In_nonempty b0); apply filter_four_chars; auto).
  unfold decode_columns.
  set (fdf := filter single_contract_filter df).
  assert (Hf : forall b, In b fdf ->
             (exists y, _get_contract_year b = Ok y) /\
             (exists m, month_of_symbol b = Ok m)).
  { intros b Hb. apply filter_four_chars in Hb as [Hb Hl].
    apply (decodable_iff b Hl). now apply Hdec. }
  destruct (apply_rows_Ok_intro _get_contract_year fdf) as [ys Hys];
    [intros b Hb; apply (Hf b Hb)|].
  destruct (apply_rows_Ok_intro month_of_symbol fdf) as [ms Hms];
    [intros b Hb; apply (Hf b Hb)|].
  rewrite Hys, Hms. cbn [bind].
  destruct (apply_rows_Ok_intro _get_expiry_length (combine fdf ys)) as [es Hes].
  { intros [b y] Hby. apply in_combine_l in Hby.
    destruct (Hf b Hby) as [_ [m Hm]].
    unfold _get_expiry_length. cbn [fst snd]. rewrite Hm. cbn [bind]. eauto. }
  rewrite Hes. cbn [bind].
  destruct nr; [|cbn [bind]; eauto].
  destruct (apply_rows_Ok_intro
              (fun ym : Z * Z => r <- _get_near_roll_date (fst ym) (snd ym) k ;; Ok (Some r))
              (combine ys ms)) as [rs Hrs].
  { intros [y m] Hym. apply in_combine_r in Hym.
    destruct (apply_rows_Ok_In _ _ _ Hms m Hym) as (b & _ & Hb).
    apply month_of_symbol_range in Hb.
    destruct (near_roll_date_defined y m k Hb) as [R HR].
    cbn [fst snd]. rewrite HR. cbn [bind]. eauto. }
  rewrite Hrs. cbn [bind]. eauto.
Qed.



Lemma get_contract_year_bounds b cy :
  String.length (symbol b) = 4%nat ->
  _get_contract_year b = Ok cy ->
  year (date (name b)) <= cy <= year (date (name b)) + 9.
Proof.
  intros Hl H. apply length_four_chars in Hl as (c0 & c1 & c2 & c3 & Hs).
  destruct (int_of_char c3) as [d|e] eqn:Hd.
  - rewrite (get_contract_year_eq _ _ _ _ _ _ Hs Hd) in H. injection H as <-.
    pose proof (int_of_char_digit _ _ Hd).
    set (Y := year (date (name b))).
    destruct (Z.ltb_spec d (Y mod 10)); Z.div_mod_to_equations; lia.
  - unfold _get_contract_year in H. rewrite Hs in H.
    unfold four_chars, str_index in H. cbn [String.get bind] in H.
    rewrite Hd in H. discriminate.
Qed.

Lemma annotated_row_ranges nr k b r :
  String.length (symbol b) = 4%nat ->
  annotation_of nr k b r ->
  1 <= contract_month r <= 12 /\
  year (date (index r)) <= contract_year r <= year (date (index r)) + 9 /\
  expiry_length r =
  (contract_year r - year (date (index r))) * 12
  + contract_month r - month (date (index r)).
Proof.
  intros Hl (Hi & _ & _ & Hy & Hm & He & _). rewrite Hi.
  split; [eapply month_of_symbol_range; eauto|].
  split; [now apply get_contract_year_bounds|exact He].
Qed.

(** X4. On success [combine_features] returns, in input order, one row for
    each bar with a 4-character symbol: the bar's label, symbol and prices
    unchanged, the decoded contract year and month, the expiry length in
    months, the near-roll date exactly in near-roll mode, and no other
    column set. *)
Theorem combine_features_rows (df : list Bar) (near_roll : bool) (k : Z)
        (out : list Row) :
  combine_features df near_roll k = Ok out ->
  Forall2 (annotation_of near_roll k) (filter single_contract_filter df) out.
Proof. apply combine_features_spec. Qed.

(** X5. [combine_features] returns a table exactly when some bar has a
    4-character symbol and every such bar has a month code of the table as
    3rd character and a digit as 4th character; this holds in both modes,
    the near-roll date never fails on a decoded contract.  When no bar has a
    4-character symbol the first column assignment raises [ValueError]. *)
Theorem combine_features_succeeds_iff (df : list Bar) (near_roll : bool) (k : Z) :
  ((exists out, combine_features df near_roll k = Ok out) <->
   (exists b, In b df /\ String.length (symbol b) = 4%nat) /\
   (forall b, In b df -> String.length (symbol b) = 4%nat -> decodable b)) /\
  ((forall b, In b df -> String.length (symbol b) <> 4%nat) ->
   combine_features df near_roll k = Raise ValueError).
Proof.
  split; [split|].
  - intros [out Hout].
    pose proof (combine_features_Ok _ _ _ _ Hout) as [Hne _].
    apply combine_features_spec in Hout. split.
    + destruct (filter single_contract_filter df) as [|b0 fdf] eqn:E;
        [congruence|].
      exists b0. apply filter_four_chars. rewrite E. now left.
    + intros b Hb Hl.
      assert (Hf : In b (filter single_contract_filter df))
        by (apply filter_four_chars; auto).
      destruct (Forall2_In_l _ _ _ _ Hout Hf) as (r & _ & _ & _ & _ & Hy & Hm & _).
      apply (decodable_iff b Hl). eauto.
  - intros [Hex Hdec]. now apply combine_features_succeeds.
  - intros Hall. apply combine_features_no_rows.
    destruct (filter single_contract_filter df) as [|b0 fdf] eqn:E;
      [reflexivity|].
    assert (Hb0 : In b0 (filter single_contract_filter df))
      by (rewrite E; now left).
    apply filter_four_chars in Hb0 as [Hin Hl]. now destruct (Hall b0 Hin).
Qed.

(** X6. The columns are decoded one after the other over the whole table: a
    4-character symbol whose 4th character is not a digit makes
    [combine_features] raise [ValueError], whatever the month codes are;
    when all 4th characters are digits, an unknown month code makes it raise
    [KeyError]. *)
Theorem combine_features_error_order (df : list Bar) (near_roll : bool) (k : Z) :
  ((exists b c, In b df /\ String.length (symbol b) = 4%nat /\
                String.get 3 (symbol b) = Some c /\ ~ digit_char c) ->
   combine_features df near_roll k = Raise ValueError) /\
  ((forall b, In b df -> String.length (symbol b) = 4%nat ->
              exists c, String.get 3 (symbol b) = Some c /\ digit_char c) ->
   (exists b c, In b df /\ String.length (symbol b) = 4%nat /\
                String.get 2 (symbol b) = Some c /\ ~ In c month_codes) ->
   combine_features df near_roll k = Raise KeyError).
Proof.
  split.
  - intros (b & c & Hb & Hl & Hc & Hn).
    assert (Hf : In b (filter single_contract_filter df))
      by (apply filter_four_chars; auto).
    assert (Hy : _get_contract_year b = Raise ValueError).
    { unfold _get_contract_year, str_index. rewrite Hc. cbn [bind].
      destruct (int_of_char c) as [d|e] eqn:Ed; [exfalso; apply Hn; now exists d|].
      unfold int_of_char in Ed. destruct (_ && _); [discriminate|].
      now injection Ed as <-. }
    destruct (apply_rows_In_Raise _ _ _ _ Hf Hy) as [e He].
    rewrite combine_features_nonempty by (eapply In_nonempty; eauto).
    unfold decode_columns. rewrite He. cbn [bind]. f_equal.
    apply apply_rows_Raise_inv in He as (x & Hx & Hxe).
    apply filter_four_chars in Hx as [_ Hx].
    eapply get_contract_year_exn; eauto.
  - intros Hdig (b & c & Hb & Hl & Hc & Hn).
    assert (Hf : In b (filter single_contract_filter df))
      by (apply filter_four_chars; auto).
    destruct (apply_rows_Ok_intro _get_contract_year
                (filter single_contract_filter df)) as [ys Hys].
    { intros x Hx. apply filter_four_chars in Hx as [Hx Hxl].
      destruct (Hdig x Hx Hxl) as (cx & Hcx & d & Hd).
      unfold _get_contract_year, str_index. rewrite Hcx. cbn [bind].
      rewrite Hd. cbn [bind]. destruct (_ <? _); eauto. }
    assert (Hm : month_of_symbol b = Raise KeyError).
    { unfold month_of_symbol, str_index. rewrite Hc. cbn [bind].
      apply dict_get_KeyError. now rewrite month_codes_keys. }
    destruct (apply_rows_In_Raise _ _ _ _ Hf Hm) as [e He].
    rewrite combine_features_nonempty by (eapply In_nonempty; eauto).
    unfold decode_columns. rewrite Hys, He. cbn [bind]. f_equal.
    apply apply_rows_Raise_inv in He as (x & Hx & Hxe).
    apply filter_four_chars in Hx as [_ Hx].
    eapply month_of_symbol_exn; eauto.
Qed.

(** X7. In every row returned by [combine_features] the contract month is
    between 1 and 12 and the contract year between the bar's year and nine
    years later; for a bar month between 1 and 12 the expiry length lies
    between -11 and 119, it is negative exactly when the contract month
    precedes the bar's month in the bar's own year, and zero exactly when
    the contract month is the bar's month. *)
Theorem annotated_ranges (df : list Bar) (near_roll : bool) (k : Z)
        (out : list Row) (r : Row) :
  combine_features df near_roll k = Ok out ->
  In r out ->
  1 <= contract_month r <= 12 /\
  year (date (index r)) <= contract_year r <= year (date (index r)) + 9 /\
  (1 <= month (date (index r)) <= 12 ->
   -11 <= expiry_length r <= 119 /\
   (expiry_length r < 0 <->
    contract_year r = year (date (index r)) /\
    contract_month r < month (date (index r))) /\
   (expiry_length r = 0 <->
    contract_year r = year (date (index r)) /\
    contract_month r = month (date (index r)))).
Proof.
  intros Hout Hr. apply combine_features_spec in Hout.
  destruct (Forall2_In_r _ _ _ _ Hout Hr) as (b & Hb & Hann).
  apply filter_four_chars in Hb as [_ Hl].
  destruct (annotated_row_ranges _ _ _ _ Hl Hann) as (Hm & Hy & He).
  split; [exact Hm|]. split; [exact Hy|]. intros HM. lia.
Qed.

(** X8. Round trip of the expiry length: counting [expiry_length] months on
    from the bar's month gives back the decoded contract year and month. *)
Theorem expiry_length_round_trip (df : list Bar) (near_roll : bool) (k : Z)
        (out : list Row) (r : Row) :
  combine_features df near_roll k = Ok out ->
  In r out ->
  1 <= month (date (index r)) <= 12 ->
  contract_year r =
  (year (date (index r)) * 12 + (month (date (index r)) - 1) + expiry_length r) / 12 /\
  contract_month r =
  (year (date (index r)) * 12 + (month (date (index r)) - 1) + expiry_length r) mod 12 + 1.
Proof.
  intros Hout Hr HM. apply combine_features_spec in Hout.
  destruct (Forall2_In_r _ _ _ _ Hout Hr) as (b & Hb & Hann).
  apply filter_four_chars in Hb as [_ Hl].
  destruct (annotated_row_ranges _ _ _ _ Hl Hann) as (Hm & Hy & He).
  Z.div_mod_to_equations. lia.
Qed.

(** ** The generic selector, date by date *)

Lemma lex_compare_eq a : forall b, lex_compare a b = Eq -> a = b.
Proof.
  induction a as [|x a IH]; intros [|y b]; simpl; try discriminate; auto.
  destruct (Z.compare_spec x y) as [Exy| |]; try discriminate.
  intros Hc. subst. f_equal. now apply IH.
Qed.

Lemma lex_leb_antisym a b : lex_leb a b = true -> lex_leb b a = true -> a = b.
Proof.
  unfold lex_leb. rewrite (lex_compare_antisym a b).
  destruct (lex_compare a b) eqn:E; simpl; try discriminate.
  intros _ _. now apply lex_compare_eq.
Qed.

Lemma date_key_inj a b : date_key a = date_key b -> a = b.
Proof.
  destruct a, b. unfold date_key. simpl. intros H. injection H. congruence.
Qed.

Lemma date_le_lt a b : date_le a b -> a <> b -> date_lt a b.
Proof.
  unfold date_le, date_lt, date_leb. rewrite lex_ltb_leb.
  intros Hle Hne. destruct (lex_leb (date_key b) (date_key a)) eqn:E; [|reflexivity].
  exfalso. apply Hne, date_key_inj. now apply lex_leb_antisym.
Qed.

Lemma key_le_same_date a b :
  date (index a) = date (index b) ->
  key_le date_expiry_key a b -> expiry_length a <= expiry_length b.
Proof.
  unfold key_le, date_expiry_key, lex_leb, date_key. intros ->. simpl.
  rewrite !Z.compare_refl.
  destruct (Z.compare_spec (expiry_length a) (expiry_length b)); try lia;
    discriminate.
Qed.

Lemma key_le_date_le a b :
  key_le date_expiry_key a b -> date_le (date (index a)) (date (index b)).
Proof. apply date_leb_of_keys. Qed.

Lemma drop_duplicates_from_first key l :
  StronglySorted (key_le key) l ->
  forall seen x,
    In x l -> ~ In (date (index x)) seen ->
    exists r, In r (drop_duplicates_from seen l) /\
              date (index r) = date (index x) /\ key_le key r x.
Proof.
  induction 1 as [|a l Hs IH Ha]; intros seen x Hx Hseen; [destruct Hx|].
  rewrite Forall_forall in Ha. simpl.
  destruct (existsb (date_eqb (date (index a))) seen) eqn:E.
  - destruct Hx as [<-|Hx].
    + exfalso. apply existsb_exists in E as (d & Hd & Hda).
      apply date_eqb_eq in Hda. congruence.
    + now apply IH.
  - destruct (date_eqb (date (index a)) (date (index x))) eqn:Ed.
    + apply date_eqb_eq in Ed. exists a. split; [now left|]. split; [exact Ed|].
      destruct Hx as [<-|Hx]; [apply lex_leb_refl|now apply Ha].
    + assert (Hne : date (index a) <> date (index x)).
      { intros Heq. apply date_eqb_eq in Heq. congruence. }
      destruct Hx as [<-|Hx]; [congruence|].
      destruct (IH (date (index a) :: seen) x Hx) as (r & Hr & Hd & Hk).
      * intros [Heq|Hin]; [congruence|auto].
      * exists r. split; [now right|auto].
Qed.

Lemma NoDup_map_In_eq {A B : Type} (f : A -> B) l a b :
  NoDup (map f l) -> In a l -> In b l -> f a = f b -> a = b.
Proof.
  induction l as [|x l IH]; simpl; [tauto|].
  intros Hn Ha Hb Hf. apply NoDup_cons_iff in Hn as [Hx Hn].
  destruct Ha as [->|Ha], Hb as [->|Hb]; auto.
  - exfalso. apply Hx. rewrite Hf. now apply in_map.
  - exfalso. apply Hx. rewrite <- Hf. now apply in_map.
Qed.

Lemma same_columns_In {A B : Type} (f : Row -> A) (g : Row -> B) l l' s :
  map f l = map f l' -> map g l = map g l' -> In s l' ->
  exists r, In r l /\ f r = f s /\ g r = g s.
Proof.
  intros Hf Hg Hs. apply In_nth_error in Hs as [i Hi].
  pose proof (f_equal (fun c => nth_error c i) Hf) as Ef.
  pose proof (f_equal (fun c => nth_error c i) Hg) as Eg.
  cbn beta in Ef, Eg. rewrite !nth_error_map, Hi in Ef, Eg.
  destruct (nth_error l i) as [r|] eqn:Er; [|discriminate].
  cbn in Ef, Eg. exists r. split; [eapply nth_error_In; eauto|].
  split; congruence.
Qed.

Lemma select_generic_candidates df length0 :
  select_generic df length0 =
  map set_index_date
      (drop_duplicates_from [] (sort_by date_expiry_key (filter (isin_lengths length0) df))).
Proof. reflexivity. Qed.

Lemma select_generic_minimal df N s r0 :
  In s (select_generic df N) ->
  In r0 df -> isin_lengths N r0 = true ->
  date (index s) = date (index r0) ->
  expiry_length s <= expiry_length r0.
Proof.
  rewrite select_generic_candidates. intros Hs Hr0 Hisin Hd.
  apply in_map_iff in Hs as (s0 & <- & Hs0).
  cbn [index expiry_length set_index_date date midnight] in *.
  set (l := sort_by date_expiry_key (filter (isin_lengths N) df)) in *.
  assert (Hl : In r0 l) by (apply sort_by_In, filter_In; auto).
  destruct (drop_duplicates_from_first date_expiry_key l
              (sort_by_sorted _ _) [] r0 Hl (fun H => H))
    as (r & Hr & Hrd & Hk).
  assert (r = s0) as ->.
  { apply (NoDup_map_In_eq (fun r => date (index r))
                           (drop_duplicates_from [] l)); auto.
    - apply drop_duplicates_from_NoDup.
    - congruence. }
  now apply key_le_same_date.
Qed.

Lemma select_generic_covers df N r0 :
  In r0 df -> isin_lengths N r0 = true ->
  exists s, In s (select_generic df N) /\ date (index s) = date (index r0).
Proof.
  intros Hr0 Hisin. rewrite select_generic_candidates.
  set (l := sort_by date_expiry_key (filter (isin_lengths N) df)).
  assert (Hl : In r0 l) by (apply sort_by_In, filter_In; auto).
  destruct (drop_duplicates_from_first date_expiry_key l
              (sort_by_sorted _ _) [] r0 Hl (fun H => H))
    as (r & Hr & Hrd & _).
  exists (set_index_date r). split; [now apply in_map|exact Hrd].
Qed.

Lemma create_rolled_series_rows df N a :
  In a (create_rolled_series df N) ->
  exists s, In s (select_generic df N) /\
            index a = index s /\ expiry_length a = expiry_length s.
Proof.
  unfold create_rolled_series.
  destruct (back_adjust_generic_columns (select_generic df N))
    as (_ & Hidx & _ & Hexp).
  intros Ha. symmetry in Hidx, Hexp.
  destruct (same_columns_In index expiry_length _ _ a Hidx Hexp Ha)
    as (s & Hs & E1 & E2).
  exists s. auto.
Qed.

Lemma create_rolled_series_dates df N :
  dates (create_rolled_series df N) = dates (select_generic df N).
Proof.
  unfold create_rolled_series.
  destruct (back_adjust_generic_columns (select_generic df N)) as (_ & Hidx & _).
  now apply dates_of_index.
Qed.

(** X9. Among the candidates of one calendar date (rows with the target
    expiry length or the next one), [create_rolled_series] keeps a row of
    minimal [expiry_length]: when a contract of the target length trades on
    a date, the row of that date has the target length. *)
Theorem generic_prefers_shorter (df : list Row) (length : Z) (a r0 : Row) :
  In a (create_rolled_series df length) ->
  In r0 df ->
  isin_lengths length r0 = true ->
  date (index a) = date (index r0) ->
  expiry_length a <= expiry_length r0 /\
  (expiry_length r0 = length -> expiry_length a = length).
Proof.
  intros Ha Hr0 Hisin Hd.
  destruct (create_rolled_series_rows _ _ _ Ha) as (s & Hs & Hi & He).
  assert (Hmin : expiry_length s <= expiry_length r0).
  { apply (select_generic_minimal df length); auto. congruence. }
  split; [lia|]. intros HN.
  apply select_generic_In in Hs as (s0 & _ & Hs0 & ->).
  unfold isin_lengths in Hs0. cbn [expiry_length set_index_date] in *.
  apply orb_true_iff in Hs0 as [H|H]; apply Z.eqb_eq in H; lia.
Qed.

(** X10. The dates of the output of [create_rolled_series] are exactly the
    calendar dates on which some input row has the target expiry length or
    the next one: no such date is dropped and no other date appears. *)
Theorem generic_selector_dates (df : list Row) (length : Z) (d : Date) :
  In d (dates (create_rolled_series df length)) <->
  exists r0, In r0 df /\ isin_lengths length r0 = true /\ date (index r0) = d.
Proof.
  rewrite create_rolled_series_dates. unfold dates. rewrite in_map_iff. split.
  - intros (s & <- & Hs).
    apply select_generic_In in Hs as (r0 & Hr0 & Hisin & ->).
    exists r0. auto.
  - intros (r0 & Hr0 & Hisin & <-).
    destruct (select_generic_covers df length r0 Hr0 Hisin) as (s & Hs & Hd).
    exists s. auto.
Qed.

Lemma sorted_NoDup_strict ds :
  StronglySorted date_le ds -> NoDup ds -> StronglySorted date_lt ds.
Proof.
  induction 1 as [|a l Hs IH Ha]; intros Hn; constructor.
  - apply IH. now apply NoDup_cons_iff in Hn.
  - apply NoDup_cons_iff in Hn as [Hna _].
    rewrite Forall_forall in *. intros b Hb.
    apply date_le_lt; [now apply Ha|]. intros ->. contradiction.
Qed.

(** X11. The rows of the output of [create_rolled_series] are in strictly
    increasing order of calendar date. *)
Theorem generic_output_ascending (df : list Row) (length : Z) :
  StronglySorted date_lt (dates (create_rolled_series df length)).
Proof.
  rewrite create_rolled_series_dates. apply sorted_NoDup_strict.
  - apply select_generic_dates_sorted.
  - unfold select_generic. rewrite dates_set_index_date.
    apply drop_duplicates_from_NoDup.
Qed.

(** ** Order of the input rows *)

Lemma insert_by_comm key a b l :
  key a <> key b ->
  insert_by key a (insert_by key b l) = insert_by key b (insert_by key a l).
Proof.
  intros Hne.
  assert (Hab : lex_leb (key a) (key b) = true -> lex_leb (key b) (key a) = false).
  { intros H. destruct (lex_leb (key b) (key a)) eqn:E; [|reflexivity].
    exfalso. apply Hne. now apply lex_leb_antisym. }
  induction l as [|x l IH]; simpl.
  - destruct (lex_leb (key a) (key b)) eqn:Eab.
    + now rewrite (Hab eq_refl).
    + now rewrite (lex_leb_total _ _ Eab).
  - destruct (lex_leb (key b) (key x)) eqn:Ebx,
             (lex_leb (key a) (key x)) eqn:Eax; simpl;
      rewrite ?Ebx, ?Eax.
    + destruct (lex_leb (key a) (key b)) eqn:Eab.
      * now rewrite (Hab eq_refl).
      * now rewrite (lex_leb_total _ _ Eab).
    + assert (lex_leb (key a) (key b) = false) as ->.
      { destruct (lex_leb (key a) (key b)) eqn:Eab; [|reflexivity].
        rewrite (lex_leb_trans _ _ _ Eab Ebx) in Eax. discriminate. }
      reflexivity.
    + assert (lex_leb (key b) (key a) = false) as ->.
      { destruct (lex_leb (key b) (key a)) eqn:Eba; [|reflexivity].
        rewrite (lex_leb_trans _ _ _ Eba Eax) in Ebx. discriminate. }
      reflexivity.
    + now rewrite IH.
Qed.

Lemma sort_by_Permutation key l l' :
  Permutation l l' -> NoDup (map key l) -> sort_by key l = sort_by key l'.
Proof.
  induction 1 as [|x l l' Hp IH|x y l|l l' l'' Hp1 IH1 Hp2 IH2]; intros Hn.
  - reflexivity.
  - simpl. f_equal. apply IH. simpl in Hn. now apply NoDup_cons_iff in Hn.
  - simpl. apply insert_by_comm. simpl in Hn.
    apply NoDup_cons_iff in Hn as [Hy _]. intros E. apply Hy. left. congruence.
  - rewrite IH1 by exact Hn. apply IH2.
    eapply Permutation_NoDup; [|exact Hn]. now apply Permutation_map.
Qed.

Lemma filter_Permutation {A : Type} (p : A -> bool) l l' :
  Permutation l l' -> Permutation (filter p l) (filter p l').
Proof.
  induction 1 as [|x l l' Hp IH|x y l|l l' l'' Hp1 IH1 Hp2 IH2]; simpl.
  - constructor.
  - destruct (p x); [now constructor|exact IH].
  - destruct (p x), (p y); try reflexivity. constructor.
  - now transitivity (filter p l').
Qed.

(** X12. When no two candidate rows share both the calendar date and the
    expiry length, the output of [create_rolled_series] does not depend on
    the order of the input rows. *)
Theorem generic_selection_order_free (df df' : list Row) (length : Z) :
  Permutation df df' ->
  NoDup (map date_expiry_key (filter (isin_lengths length) df)) ->
  create_rolled_series df length = create_rolled_series df' length.
Proof.
  intros Hp Hn. unfold create_rolled_series, select_generic.
  rewrite (sort_by_Permutation date_expiry_key _ _
             (filter_Permutation (isin_lengths length) _ _ Hp) Hn).
  reflexivity.
Qed.

(** ** Sorted keys *)

Lemma key_sorted_map key l :
  StronglySorted (key_le key) l <-> StronglySorted lex_le (map key l).
Proof.
  induction l as [|x l IH]; simpl.
  - split; constructor.
  - split; intros H; apply StronglySorted_inv in H as [Hl Hx];
      constructor; try (now apply IH).
    + rewrite Forall_forall in *. intros k Hk.
      apply in_map_iff in Hk as (r & <- & Hr). now apply Hx.
    + rewrite Forall_forall in *. intros r Hr. apply Hx. now apply in_map.
Qed.

(** ** Shape of the adjusted rows *)

Lemma nan_as_zero_Some zs : map nan_as_zero (map Some zs) = zs.
Proof. rewrite map_map. apply map_id. Qed.

Lemma nth_error_suffix_sums zs :
  forall i, (i < List.length zs)%nat ->
            nth_error (suffix_sums zs) i = Some (sumZ (skipn i zs)).
Proof.
  induction zs as [|z zs IH]; intros i Hi; simpl in Hi; [lia|].
  destruct i as [|i]; [reflexivity|].
  cbn [suffix_sums nth_error skipn]. apply IH. lia.
Qed.

Lemma nth_error_tail_sums zs :
  forall i, (i < List.length zs)%nat ->
            nth_error (tail_sums zs) i = Some (sumZ (skipn (S i) zs)).
Proof.
  induction zs as [|z zs IH]; intros i Hi; simpl in Hi; [lia|].
  destruct i as [|i]; [reflexivity|].
  cbn [tail_sums nth_error]. rewrite IH by lia. reflexivity.
Qed.


Lemma adjusted_In ndf :
  forall adj tot a,
    In a (adjusted ndf adj tot) ->
    exists s g t, In s ndf /\ a = add_to_prices (set_adjustment s (Some g)) (Some t).
Proof.
  induction ndf as [|r ndf IH]; intros [|g adj] [|t tot] a Ha;
    try (now destruct Ha).
  destruct Ha as [<-|Ha].
  - exists r, g, t. split; [now left|reflexivity].
  - destruct (IH adj tot a Ha) as (s & g' & t' & Hs & E).
    exists s, g', t'. split; [now right|exact E].
Qed.

Lemma adjusted_length ndf :
  forall adj tot,
    List.length adj = List.length ndf -> List.length tot = List.length ndf ->
    List.length (adjusted ndf adj tot) = List.length ndf.
Proof.
  induction ndf as [|r ndf IH]; intros [|g adj] [|t tot]; simpl;
    try discriminate; auto.
Qed.


(** X15. The total adjustment of a row is the sum of the adjustments of
    that row and of all later rows under the generic policy, and the sum of
    the adjustments of the later rows only under the near-roll policy. *)
Theorem total_adjustment_sums (ndf : list Row) (i : nat) :
  (i < List.length ndf)%nat ->
  nth_error (total_adjustment_generic ndf) i =
  Some (Some (sumZ (map nan_as_zero (skipn i (adjustment_generic ndf))))) /\
  nth_error (total_adjustment_near ndf) i =
  Some (Some (sumZ (map nan_as_zero (skipn (S i) (adjustment_near ndf))))).
Proof.
  intros Hi.
  rewrite total_adjustment_generic_eq, total_adjustment_near_eq,
    adjustment_generic_eq, adjustment_near_eq.
  rewrite !skipn_map, !nan_as_zero_Some, !nth_error_map.
  rewrite nth_error_suffix_sums by (now rewrite adj_generic_length).
  rewrite nth_error_tail_sums by (now rewrite adj_near_length).
  split; reflexivity.
Qed.



Lemma adj_generic_one_symbol ndf :
  (forall r r', In r ndf -> In r' ndf -> r_symbol r = r_symbol r') ->
  adj_generic ndf = map (fun _ => 0) ndf.
Proof.
  induction ndf as [|r rest IH]; intros H; [reflexivity|].
  cbn [adj_generic map]. f_equal.
  - destruct rest as [|r' rest']; [reflexivity|].
    assert (E : r_symbol r = r_symbol r') by (apply H; simpl; auto).
    apply String.eqb_eq in E. now rewrite E.
  - apply IH. intros a b Ha Hb. apply H; now right.
Qed.

(** X17. When all selected rows carry the same symbol there is no roll:
    [create_rolled_series] returns the selected rows with their raw prices
    and a zero adjustment. *)
Theorem single_contract_unadjusted (df : list Row) (length : Z) :
  (forall r r', In r (select_generic df length) -> In r' (select_generic df length) ->
                r_symbol r = r_symbol r') ->
  create_rolled_series df length =
  map (fun r => set_adjustment r (Some 0)) (select_generic df length).
Proof.
  intros H. unfold create_rolled_series.
  rewrite back_adjust_generic_eq, (adj_generic_one_symbol _ H).
  apply adjusted_zeros.
Qed.

(** ** The near-roll policy on annotated tables *)






Lemma insert_by_length key r l :
  List.length (insert_by key r l) = S (List.length l).
Proof.
  induction l as [|x l IH]; simpl; [reflexivity|].
  destruct (lex_leb (key r) (key x)); simpl; congruence.
Qed.

Lemma sort_by_length key l : List.length (sort_by key l) = List.length l.
Proof.
  induction l as [|x l IH]; simpl; [reflexivity|].
  now rewrite insert_by_length, IH.
Qed.

(** X19. Every row of the output of [near_roll] is a front-month row
    (expiry length 0) labelled strictly before its own roll date, or a
    second-month row (expiry length 1) labelled on or after the roll date
    of a front-month row of the same label; the rows are in ascending order
    of their labels and none of the selected rows is lost. *)
Theorem near_roll_rows (df : list Row) :
  (forall a, In a (near_roll df) ->
     (expiry_length a = 0 /\ before_roll_date a = true) \/
     (expiry_length a = 1 /\ on_or_after_fm_roll_date a = true /\
      exists f, In f df /\ expiry_length f = 0 /\ index f = index a /\
                contract_roll_date f = fm_roll_date a)) /\
  StronglySorted lex_le (map (fun r => ts_key (index r)) (near_roll df)) /\
  List.length (near_roll df) =
  (List.length (adj_frdf df) + List.length (adj_sdf df))%nat.
Proof.
  split; [|split].
  - intros a Ha. unfold near_roll in Ha. rewrite back_adjust_near_eq in Ha.
    apply adjusted_In in Ha as (s & g & t & Hs & ->).
    unfold select_near in Hs. apply sort_by_In in Hs.
    apply in_app_or in Hs as [Hs|Hs].
    + left. apply filter_In in Hs as [Hs Hb]. apply filter_In in Hs as [_ H0].
      apply Z.eqb_eq in H0. split; [exact H0|exact Hb].
    + right. apply adj_sdf_In in Hs as (s0 & Hs0 & -> & Ho).
      apply filter_In in Hs0 as [Hs0 H1]. apply Z.eqb_eq in H1.
      split; [exact H1|]. split; [exact Ho|].
      unfold on_or_after_fm_roll_date in Ho.
      cbn [fm_roll_date index set_fm_roll_date add_to_prices set_adjustment] in *.
      destruct (aligned_roll_date (front_month df) (index s0)) as [R|] eqn:E;
        [|discriminate].
      apply aligned_roll_date_Some in E as (f & Hf & Hi & HR).
      apply filter_In in Hf as [Hf H0]. apply Z.eqb_eq in H0.
      exists f. auto.
  - unfold near_roll.
    destruct (back_adjust_near_columns (select_near df)) as (_ & Hidx & _).
    rewrite <- (map_map index ts_key), Hidx, map_map.
    apply (key_sorted_map (fun r => ts_key (index r))).
    unfold select_near. apply sort_by_sorted.
  - unfold near_roll. rewrite back_adjust_near_eq, adjusted_length.
    + unfold select_near. now rewrite sort_by_length, length_app.
    + apply adj_near_length.
    + now rewrite tail_sums_length, adj_near_length.
Qed.

(** ** The verbose count *)




(** ** The near-roll date on every contract *)

(** X1. For every contract year, every contract month from 1 to 12 and
    every offset, [_get_near_roll_date] returns a timestamp: a month always
    has a third business day from its end. *)
Theorem near_roll_date_total (y m k : Z) :
  1 <= m <= 12 -> exists R, _get_near_roll_date y m k = Ok R.
Proof. apply near_roll_date_defined. Qed.

Lemma near_roll_date_total_witness :
  exists R, _get_near_roll_date 2024 2 3 = Ok R.
Proof. apply (near_roll_date_total 2024 2 3). lia. Defined.

(** X2. The timestamp returned by [_get_near_roll_date] is a midnight and
    never falls on a Saturday; it lies [k] or [k + 1] calendar days before
    the third business day from the end of the contract month, which is a
    weekday, and with offset 0 it is that business day itself. *)
Theorem near_roll_date_weekday (y m k : Z) (R : Timestamp) :
  _get_near_roll_date y m k = Ok R ->
  exists b,
    nth_error (rev (bdate_range y m)) 2 = Some b /\
    0 <= weekday b < 5 /\
    seconds R = 0 /\
    valid_date (date R) /\
    weekday (date R) <> 5 /\
    toordinal b - k - 1 <= toordinal (date R) <= toordinal b - k /\
    (k = 0 -> date R = b).
Proof.
  intros H. apply near_roll_date_steps in H as (Hm & b & Hb & ->).
  exists b. split; [exact Hb|].
  pose proof (third_last_business_day_weekday _ _ _ Hb) as Hw.
  split; [exact Hw|]. split; [reflexivity|].
  assert (Hvb : valid_date b).
  { destruct (third_last_business_day y m) as (d & Hd & Hr).
    rewrite Hb in Hd. injection Hd as ->.
    pose proof (days_in_month_range y m). unfold valid_date. cbn. lia. }
  destruct (sub_days_ordinal b k Hvb) as [Hv Ho].
  cbn [date midnight].
  destruct (Z.eqb_spec (weekday (sub_days b k)) 5) as [E|E].
  - split; [now apply prev_day_valid|].
    rewrite (weekday_prev_day _ Hv E), (toordinal_prev_day _ Hv).
    split; [lia|]. split; [lia|].
    intros ->. unfold sub_days in E. simpl in E. lia.
  - split; [exact Hv|]. split; [exact E|]. split; [lia|].
    intros ->. reflexivity.
Qed.

Lemma near_roll_date_weekday_witness :
  exists b,
    nth_error (rev (bdate_range 2023 11)) 2 = Some b /\
    0 <= weekday b < 5 /\
    seconds (midnight (mkDate 2023 11 24)) = 0 /\
    valid_date (date (midnight (mkDate 2023 11 24))) /\
    weekday (date (midnight (mkDate 2023 11 24))) <> 5 /\
    toordinal b - 3 - 1 <= toordinal (date (midnight (mkDate 2023 11 24)))
    <= toordinal b - 3 /\
    (3 = 0 -> date (midnight (mkDate 2023 11 24)) = b).
Proof.
  apply (near_roll_date_weekday 2023 11 3 (midnight (mkDate 2023 11 24))).
  vm_compute. reflexivity.
Defined.

(** X3. With an offset between 0 and 22 days the date returned by
    [_get_near_roll_date] lies in the contract month itself, between 5 + k
    and 2 + k days before the last day of the month. *)
Theorem near_roll_date_in_contract_month (y m k : Z) (R : Timestamp) :
  0 <= k <= 22 ->
  _get_near_roll_date y m k = Ok R ->
  year (date R) = y /\ month (date R) = m /\
  days_in_month y m - 5 - k <= day (date R) <= days_in_month y m - 2 - k.
Proof. apply near_roll_date_in_month. Qed.

Lemma near_roll_date_in_contract_month_witness :
  year (date (midnight (mkDate 2024 5 26))) = 2024 /\
  month (date (midnight (mkDate 2024 5 26))) = 5 /\
  days_in_month 2024 5 - 5 - 3 <= day (date (midnight (mkDate 2024 5 26)))
  <= days_in_month 2024 5 - 2 - 3.
Proof.
  apply (near_roll_date_in_contract_month 2024 5 3 (midnight (mkDate 2024 5 26))).
  - lia.
  - vm_compute. reflexivity.
Defined.

(** ** Instances of the further properties *)

Lemma combine_features_rows_witness :
  Forall2 (annotation_of true 3) (filter single_contract_filter coverage_bars)
          coverage_df.
Proof.
  apply (combine_features_rows coverage_bars true 3 coverage_df).
  vm_compute. reflexivity.
Defined.

Lemma combine_features_error_order_witness :
  combine_features [bar_bad_month; daily_bar 2023 11 15 "GCZX" 1 2 0 1] false 3 =
  Raise ValueError /\
  combine_features [bar_GCZ3; bar_bad_month] false 3 = Raise KeyError.
Proof.
  split.
  - destruct (combine_features_error_order
                [bar_bad_month; daily_bar 2023 11 15 "GCZX" 1 2 0 1] false 3)
      as [H _].
    apply H. exists (daily_bar 2023 11 15 "GCZX" 1 2 0 1), "X"%char.
    split; [simpl; auto|]. split; [reflexivity|]. split; [reflexivity|].
    intros [d Hd]. vm_compute in Hd. discriminate Hd.
  - destruct (combine_features_error_order [bar_GCZ3; bar_bad_month] false 3)
      as [_ H].
    apply H.
    + intros b [<-|[<-|[]]] _; exists "3"%char; (split; [reflexivity|]);
        exists 3; reflexivity.
    + exists bar_bad_month, "A"%char.
      split; [simpl; auto|]. split; [reflexivity|]. split; [reflexivity|].
      unfold month_codes. simpl. intros Hc.
      repeat (destruct Hc as [Hc|Hc]; [discriminate Hc|]). exact Hc.
Defined.

Lemma annotated_ranges_witness :
  Forall (fun r =>
            1 <= contract_month r <= 12 /\
            year (date (index r)) <= contract_year r <= year (date (index r)) + 9 /\
            -11 <= expiry_length r <= 119)
         coverage_df.
Proof.
  apply Forall_forall. intros r Hr.
  destruct (annotated_ranges coverage_bars true 3 coverage_df r)
    as (H1 & H2 & H3).
  - vm_compute. reflexivity.
  - exact Hr.
  - split; [exact H1|]. split; [exact H2|]. apply H3.
    vm_compute in Hr.
    destruct Hr as [<-|[<-|[<-|[]]]]; vm_compute; split; discriminate.
Defined.

Lemma expiry_length_round_trip_witness :
  Forall (fun r =>
            contract_year r =
            (year (date (index r)) * 12 + (month (date (index r)) - 1)
             + expiry_length r) / 12 /\
            contract_month r =
            (year (date (index r)) * 12 + (month (date (index r)) - 1)
             + expiry_length r) mod 12 + 1)
         coverage_df.
Proof.
  apply Forall_forall. intros r Hr.
  apply (expiry_length_round_trip coverage_bars true 3 coverage_df r).
  - vm_compute. reflexivity.
  - exact Hr.
  - vm_compute in Hr.
    destruct Hr as [<-|[<-|[<-|[]]]]; vm_compute; split; discriminate.
Defined.

Lemma generic_prefers_shorter_witness :
  exists a r0,
    In a (create_rolled_series generic_df 1) /\ In r0 generic_df /\
    r_symbol r0 = "GCZ3"%string /\ expiry_length r0 = 2 /\
    r_symbol a = "GCX3"%string /\
    date (index a) = date (index r0) /\
    expiry_length a <= expiry_length r0.
Proof.
  destruct (nth_error (create_rolled_series generic_df 1) 0) as [a|] eqn:Ea;
    [|vm_compute in Ea; discriminate Ea].
  destruct (nth_error generic_df 1) as [r0|] eqn:Er;
    [|vm_compute in Er; discriminate Er].
  pose proof (nth_error_In _ _ Ea) as Ha.
  pose proof (nth_error_In _ _ Er) as Hr.
  vm_compute in Ea, Er. injection Ea as Ea. injection Er as Er.
  exists a, r0.
  split; [exact Ha|]. split; [exact Hr|].
  split; [now subst r0|]. split; [now subst r0|]. split; [now subst a|].
  assert (Hd : date (index a) = date (index r0)) by (subst a r0; reflexivity).
  split; [exact Hd|].
  apply (generic_prefers_shorter generic_df 1 a r0 Ha Hr); [|exact Hd].
  subst r0. reflexivity.
Defined.

Ltac nodup_keys :=
  repeat (constructor; [simpl; intuition discriminate|]); constructor.

Lemma generic_selection_order_free_witness :
  create_rolled_series generic_df 1 = create_rolled_series (rev generic_df) 1.
Proof.
  apply (generic_selection_order_free generic_df (rev generic_df) 1).
  - apply Permutation_rev.
  - let l := eval vm_compute in
        (map date_expiry_key (filter (isin_lengths 1) generic_df)) in
    change (NoDup l).
    nodup_keys.
Defined.

Lemma total_adjustment_sums_witness :
  nth_error (total_adjustment_generic (select_generic generic_df 1)) 0 =
  Some (Some (sumZ (map nan_as_zero
                        (skipn 0 (adjustment_generic (select_generic generic_df 1)))))) /\
  nth_error (total_adjustment_near (select_generic generic_df 1)) 0 =
  Some (Some (sumZ (map nan_as_zero
                        (skipn 1 (adjustment_near (select_generic generic_df 1)))))).
Proof.
  apply (total_adjustment_sums (select_generic generic_df 1) 0).
  vm_compute. lia.
Defined.


Lemma single_contract_unadjusted_witness :
  create_rolled_series coverage_df 1 =
  map (fun r => set_adjustment r (Some 0)) (select_generic coverage_df 1).
Proof.
  apply (single_contract_unadjusted coverage_df 1).
  intros r r' Hr Hr'. vm_compute in Hr, Hr'.
  destruct Hr as [<-|[<-|[]]]; destruct Hr' as [<-|[<-|[]]]; reflexivity.
Defined.

